(** * GoAniGiffy: a shallow embedding of goanigiffy.go

    The program turns a sorted set of still images into an animated GIF,
    cropping, scaling, rotating and flipping every frame first.  The
    repository holds two copies of the program: the one whose geometry
    lives in the helpers [CropImage], [ScaleImage], [RotateImage] and
    [FlipImage] (module [Factored]) and the one whose geometry is written
    out inside [main] (module [Inlined]).

    Go's [int] is modelled as [Z] with the 64 bit wrap-around written out,
    [float64] as Rocq's primitive binary64 floats, the packages [image],
    [imaging] and [image/gif] by the parts of their behaviour the program
    relies on, and the file system, the decoders and the GIF codec by a
    record of collaborators ([World]). *)

From Stdlib Require Import ZArith Floats String Ascii Sorted.
From stdpp Require Import gmap strings list sorting.

Open Scope Z_scope.

(** ** Go's numeric types *)

Module GoInt.

(** A 64 bit two's complement [int]: the value an arithmetic result wraps to. *)
Definition wrap (z : Z) : Z := (z + 2 ^ 63) mod 2 ^ 64 - 2 ^ 63.

Definition add (a b : Z) : Z := wrap (a + b).
Definition sub (a b : Z) : Z := wrap (a - b).

(** [float64(n)]: the binary64 number nearest to [n]. *)
Definition to_float64 (n : Z) : float :=
  SF2Prim (binary_normalize 53 1024 n 0 false).

(** [int(f)]: the fraction is discarded.  A value that does not fit
    (NaN and the infinities too) gives the smallest [int], as the amd64
    conversion instruction does. *)
Definition of_float64 (f : float) : Z :=
  match Prim2SF f with
  | S754_zero _ => 0
  | S754_finite s m e =>
      let a := match e with
               | Z0 => Z.pos m
               | Z.pos p => Z.pos m * 2 ^ Z.pos p
               | Z.neg p => Z.pos m / 2 ^ Z.pos p
               end in
      let v := if s then - a else a in
      if (- 2 ^ 63 <=? v) && (v <? 2 ^ 63) then v else - 2 ^ 63
  | _ => - 2 ^ 63
  end.

End GoInt.

(** ** Package image: points, half-open rectangles, images *)

Module image.

Record Point := Pt { X : Z; Y : Z }.

(** A rectangle holds the points with [Min.X <= x < Max.X] and
    [Min.Y <= y < Max.Y]. *)
Record Rectangle := Rectangle_ { Min : Point; Max : Point }.

Definition ZR : Rectangle := Rectangle_ (Pt 0 0) (Pt 0 0).

(** [image.Rect]: the corners are swapped where needed, so that the
    rectangle is well formed. *)
Definition Rect (x0 y0 x1 y1 : Z) : Rectangle :=
  let '(x0, x1) := if x0 >? x1 then (x1, x0) else (x0, x1) in
  let '(y0, y1) := if y0 >? y1 then (y1, y0) else (y0, y1) in
  Rectangle_ (Pt x0 y0) (Pt x1 y1).

Definition Dx (r : Rectangle) : Z := GoInt.sub (X (Max r)) (X (Min r)).
Definition Dy (r : Rectangle) : Z := GoInt.sub (Y (Max r)) (Y (Min r)).

Definition Empty (r : Rectangle) : bool :=
  (X (Min r) >=? X (Max r)) || (Y (Min r) >=? Y (Max r)).

(** The largest rectangle inside both; [ZR] when they do not overlap. *)
Definition Intersect (r s : Rectangle) : Rectangle :=
  let r' :=
    Rectangle_
      (Pt (if X (Min r) <? X (Min s) then X (Min s) else X (Min r))
          (if Y (Min r) <? Y (Min s) then Y (Min s) else Y (Min r)))
      (Pt (if X (Max r) >? X (Max s) then X (Max s) else X (Max r))
          (if Y (Max r) >? Y (Max s) then Y (Max s) else Y (Max r))) in
  if Empty r' then ZR else r'.

(** [Point.In]. *)
Definition In (x y : Z) (r : Rectangle) : bool :=
  (X (Min r) <=? x) && (x <? X (Max r)) && (Y (Min r) <=? y) && (y <? Y (Max r)).

(** A colour, packed as 0xRRGGBBAA; 0 is the zero colour. *)
Definition Color := Z.

(** The interface [image.Image]: bounds and a colour at every point. *)
Record Image := Image_ { Bounds : Rectangle; At : Z -> Z -> Color }.

(** [*image.Paletted], as [gif.Decode] returns it. *)
Record Paletted := Paletted_ {
  Pix : list Z;
  Stride : Z;
  PRect : Rectangle;
  Palette : list Color
}.

End image.

(** ** Package imaging (github.com/disintegration/imaging)

    All images the program handles are anchored at the origin: decoded
    JPEG and PNG files are, and so is every image this package returns. *)

Module imaging.
Import image.

(** [&image.NRGBA{}], the image without pixels. *)
Definition empty : Image := Image_ ZR (fun _ _ => 0).

(** An image of [w] by [h] pixels from its pixel function; outside the
    bounds [At] is the zero colour. *)
Definition canvas (w h : Z) (pix : Z -> Z -> Color) : Image :=
  Image_ (Rect 0 0 w h)
         (fun x y => if In x y (Rect 0 0 w h) then pix x y else 0).

(** [imaging.Crop]: the part of the image inside [rect].  The rectangle
    is intersected with the image's bounds first; when nothing is left
    the result is the empty image. *)
Definition Crop (img : Image) (rect : Rectangle) : Image :=
  let r := Intersect rect (Bounds img) in
  if Empty r then empty
  else canvas (Dx r) (Dy r)
              (fun x y => At img (GoInt.add (X (Min r)) x) (GoInt.add (Y (Min r)) y)).

(** A resampling filter: the colour of pixel [(x, y)] of the image
    resized to [w] by [h].  The arithmetic of the filter itself stays
    abstract. *)
Definition ResampleFilter := Image -> Z -> Z -> Z -> Z -> Color.

(** [int(math.Max(1.0, math.Floor(t + 0.5)))]. *)
Definition round_min1 (t : float) : Z :=
  let u := (t + 0.5)%float in
  if (u <? 1)%float then 1 else GoInt.of_float64 u.

(** [imaging.Resize]: a negative size, two zero sizes or an empty source
    give the empty image; one zero size is replaced by the one that
    keeps the aspect ratio, at least 1. *)
Definition Resize (img : Image) (width height : Z) (filter : ResampleFilter) : Image :=
  if (width <? 0) || (height <? 0) then empty
  else if (width =? 0) && (height =? 0) then empty
  else
    let srcW := Dx (Bounds img) in
    let srcH := Dy (Bounds img) in
    if (srcW <=? 0) || (srcH <=? 0) then empty
    else
      let dstW :=
        if width =? 0
        then round_min1 (GoInt.to_float64 height * GoInt.to_float64 srcW / GoInt.to_float64 srcH)%float
        else width in
      let dstH :=
        if height =? 0
        then round_min1 (GoInt.to_float64 dstW * GoInt.to_float64 srcH / GoInt.to_float64 srcW)%float
        else height in
      canvas dstW dstH (filter img dstW dstH).

(** The rotations are counter-clockwise and move pixels without
    resampling. *)
Definition Rotate90 (img : Image) : Image :=
  let w := Dx (Bounds img) in
  let h := Dy (Bounds img) in
  canvas h w (fun x y => At img (w - 1 - y) x).

Definition Rotate180 (img : Image) : Image :=
  let w := Dx (Bounds img) in
  let h := Dy (Bounds img) in
  canvas w h (fun x y => At img (w - 1 - x) (h - 1 - y)).

Definition Rotate270 (img : Image) : Image :=
  let w := Dx (Bounds img) in
  let h := Dy (Bounds img) in
  canvas h w (fun x y => At img y (h - 1 - x)).

Definition FlipH (img : Image) : Image :=
  let w := Dx (Bounds img) in
  let h := Dy (Bounds img) in
  canvas w h (fun x y => At img (w - 1 - x) y).

Definition FlipV (img : Image) : Image :=
  let w := Dx (Bounds img) in
  let h := Dy (Bounds img) in
  canvas w h (fun x y => At img x (h - 1 - y)).

End imaging.

(** ** Package image/gif *)

Module gif.
Import image.

(** [gif.GIF{Image, Delay, LoopCount}]. *)
Record GIF := GIF_ {
  Image : list Paletted;
  Delay : list Z;
  LoopCount : Z
}.

(** What [gif.EncodeAll] refuses before it writes anything. *)
Definition rejected (g : GIF) : bool :=
  (Z.of_nat (length (Image g)) =? 0)
  || negb (Z.of_nat (length (Image g)) =? Z.of_nat (length (Delay g))).

End gif.

(** ** [sort.Strings]: increasing byte-wise order *)

Fixpoint insert_sorted (s : string) (l : list string) : list string :=
  match l with
  | [] => [s]
  | t :: l' => if String.leb s t then s :: l else t :: insert_sorted s l'
  end.

Definition sort_Strings (l : list string) : list string :=
  foldr insert_sorted [] l.

(** ** The collaborators and the effects of a run *)

(** What a file written by the program holds: nothing yet (created or
    truncated), or the serialisation of an animation, whole or cut short
    by a failure. *)
Inductive FileData :=
| NoData
| Stream (g : gif.GIF) (complete : bool).

(** The lines the program prints on standard error, one constructor per
    [log.Printf] or [log.Fatalf] of the source; [Usage] is what
    [flag.PrintDefaults] prints. *)
Inductive Msg :=
| MsgRotateFlag
| MsgFlipFlag
| Usage
| MsgGlobError (pattern : string)
| MsgNoSource (pattern : string)
| MsgFound (n : Z)
| MsgSkipRead (filename : string)
| MsgParsing (ctr n : Z) (filename : string)
| MsgCropping (x0 y0 x1 y1 : Z)
| MsgScaling (w h neww newh : Z)
| MsgRotating (rotate : Z)
| MsgFlipping (flip : string)
| MsgSkipEncode (filename : string)
| MsgSkipTemp (filename : string)
| MsgParsedAll (destname : string)
| MsgCreateError (destname : string)
| MsgEncodeError.

(** Everything outside the program.  [None] stands for a returned error. *)
Record World := World_ {
  Glob : string -> option (list string);          (* filepath.Glob *)
  Open : string -> option image.Image;            (* imaging.Open *)
  Encode : image.Image -> option (list Byte.byte);   (* gif.Encode into a buffer *)
  Decode : list Byte.byte -> option image.Paletted;  (* gif.Decode from the buffer;
                                                       what it returns is a *image.Paletted *)
  Create : string -> bool;                        (* os.Create succeeds *)
  WriteAll : gif.GIF -> bool;                     (* gif.EncodeAll writes the whole stream *)
  Lanczos : imaging.ResampleFilter                (* imaging.Lanczos *)
}.

(** The state a run changes: standard error and the files it wrote. *)
Record State := State_ {
  log : list Msg;
  fs : gmap string FileData
}.

(** A computation returns, or ends the process with an exit status. *)
Inductive Result (A : Type) :=
| Ret (a : A) (s : State)
| Exit (code : Z) (s : State).
Arguments Ret {A} a s.
Arguments Exit {A} code s.

Definition M (A : Type) : Type := State -> Result A.

#[global] Instance M_ret : MRet M := fun A a s => Ret a s.

#[global] Instance M_bind : MBind M := fun A B k m s =>
  match m s with
  | Ret a s' => k a s'
  | Exit c s' => Exit c s'
  end.

Definition Printf (m : Msg) : M unit :=
  fun s => Ret tt (State_ (log s ++ [m]) (fs s)).

Definition os_Exit {A} (code : Z) : M A :=
  fun s => Exit code s.

(** [log.Fatalf] prints and exits with status 1. *)
Definition Fatalf {A} (m : Msg) : M A :=
  Printf m ;; os_Exit 1.

Definition PrintDefaults : M unit := Printf Usage.

Definition when (b : bool) (m : M unit) : M unit :=
  if b then m else mret tt.

(** [os.Create]: the file is created, or truncated when it exists. *)
Definition os_Create (w : World) (name : string) : M (option string) :=
  fun s =>
    if Create w name
    then Ret (Some name) (State_ (log s) (<[name := NoData]> (fs s)))
    else Ret None s.

(** [gif.EncodeAll] on an open file; the result tells whether it
    returned an error. *)
Definition EncodeAll (w : World) (opfile : string) (g : gif.GIF) : M bool :=
  fun s =>
    if gif.rejected g then Ret true s
    else if WriteAll w g
         then Ret false (State_ (log s) (<[opfile := Stream g true]> (fs s)))
         else Ret true (State_ (log s) (<[opfile := Stream g false]> (fs s))).

Definition Close (opfile : string) : M unit := mret tt.

(** The exit status of the process: 0 when [main] returns. *)
Definition exit_status (r : Result unit) : Z :=
  match r with
  | Ret _ _ => 0
  | Exit c _ => c
  end.

Definition final_state {A} (r : Result A) : State :=
  match r with
  | Ret _ s => s
  | Exit _ s => s
  end.

(** [for ctr, filename := range srcfilenames], threading the variables
    the body assigns to. *)
Fixpoint for_range {S : Type} (body : Z -> string -> S -> M S)
    (ctr : Z) (l : list string) (st : S) : M S :=
  match l with
  | [] => mret st
  | filename :: l' =>
      st' ← body ctr filename st;
      for_range body (ctr + 1) l' st'
  end.

(** [delays := make([]int, n)] followed by [delays[j] = delay] for every
    index [j]. *)
Definition make_delays (n : nat) (delay : Z) : list Z :=
  foldl (fun delays j => <[j := delay]> delays) (replicate n 0) (seq 0 n).

(** The command line, after [flag.Parse]. *)
Record Flags := Flags_ {
  srcglob : string;
  destname : string;
  cropleft : Z;
  croptop : Z;
  cropwidth : Z;
  cropheight : Z;
  delay : Z;
  verbose : bool;
  scale : float;
  rotate : Z;
  flip : string
}.

Definition default_flags : Flags :=
  Flags_ "*.jpg" "movie.gif" 0 0 (-1) (-1) 3 false 1%float 0 "none".

(** The two checks of the flags that both copies of [main] start with. *)
Definition rotate_ok (r : Z) : bool :=
  (r =? 0) || (r =? 90) || (r =? 180) || (r =? 270).

Definition flip_ok (f : string) : bool :=
  String.eqb f "none" || String.eqb f "horizontal" || String.eqb f "vertical".

(** ** The program with the geometry in helper functions *)

Module Factored.
Section Program.
Context (w : World).

Definition CropImage (cropleft croptop cropwidth cropheight : Z)
    (img : image.Image) (verbose : bool) : M image.Image :=
  (* Crop operation. Ignore if there is no crop operation specified *)
  if negb ((cropwidth =? -1) && (cropheight =? -1) && (cropleft =? 0) && (croptop =? 0))
  then
    let cropwidth :=
      if cropwidth =? -1 then image.Dx (image.Bounds img) else cropwidth in
    let cropheight :=
      if cropheight =? -1 then image.Dy (image.Bounds img) else cropheight in
    when verbose
      (Printf (MsgCropping cropleft croptop
                 (GoInt.sub (GoInt.add cropleft cropwidth) 1)
                 (GoInt.sub (GoInt.add croptop cropheight) 1)));;
    mret (imaging.Crop img
            (image.Rect cropleft croptop
               (GoInt.sub (GoInt.add cropleft cropwidth) 1)
               (GoInt.sub (GoInt.add croptop cropheight) 1)))
  else mret img.

Definition ScaleImage (scale : float) (img : image.Image) (verbose : bool) : M image.Image :=
  (* Scale operation. Ignore if scale is 1.0 *)
  if negb (scale =? 1)%float
  then
    let newwidth :=
      GoInt.of_float64 (GoInt.to_float64 (image.Dx (image.Bounds img)) * scale)%float in
    let newheight :=
      GoInt.of_float64 (GoInt.to_float64 (image.Dy (image.Bounds img)) * scale)%float in
    when verbose
      (Printf (MsgScaling (image.Dx (image.Bounds img)) (image.Dy (image.Bounds img))
                 newwidth newheight));;
    mret (imaging.Resize img newwidth newheight (Lanczos w))
  else mret img.

Definition RotateImage (rotate : Z) (img : image.Image) (verbose : bool) : M image.Image :=
  (* Rotate operation. Ignore if rotate is 0 *)
  when (negb (rotate =? 0) && verbose) (Printf (MsgRotating rotate));;
  mret (if rotate =? 90 then imaging.Rotate90 img
        else if rotate =? 180 then imaging.Rotate180 img
        else if rotate =? 270 then imaging.Rotate270 img
        else img).

Definition FlipImage (flip : string) (img : image.Image) (verbose : bool) : M image.Image :=
  (* Flip operation *)
  when (negb (String.eqb flip "none") && verbose) (Printf (MsgFlipping flip));;
  mret (if String.eqb flip "horizontal" then imaging.FlipH img
        else if String.eqb flip "vertical" then imaging.FlipV img
        else img).

(** The body of the loop over the source files; [continue] leaves
    [frames] as it was. *)
Definition body (f : Flags) (n : Z) (ctr : Z) (filename : string)
    (frames : list image.Paletted) : M (list image.Paletted) :=
  match Open w filename with
  | None => Printf (MsgSkipRead filename);; mret frames
  | Some img =>
      when (verbose f) (Printf (MsgParsing ctr n filename));;
      img ← CropImage (cropleft f) (croptop f) (cropwidth f) (cropheight f) img (verbose f);
      img ← ScaleImage (scale f) img (verbose f);
      img ← RotateImage (rotate f) img (verbose f);
      img ← FlipImage (flip f) img (verbose f);
      match Encode w img with
      | None => Printf (MsgSkipEncode filename);; mret frames
      | Some buf =>
          match Decode w buf with
          | None => Printf (MsgSkipTemp filename);; mret frames
          | Some tmpimg => mret (frames ++ [tmpimg])
          end
      end
  end.

Definition main (f : Flags) : M unit :=
  (if negb (rotate_ok (rotate f))
   then Printf MsgRotateFlag;; PrintDefaults;; os_Exit 1
   else mret tt);;
  (if negb (flip_ok (flip f))
   then Printf MsgFlipFlag;; PrintDefaults;; os_Exit 1
   else mret tt);;
  srcfilenames ← match Glob w (srcglob f) with
                 | None => Fatalf (MsgGlobError (srcglob f))
                 | Some l => mret l
                 end;
  (if Z.of_nat (length srcfilenames) =? 0
   then Fatalf (MsgNoSource (srcglob f))
   else mret tt);;
  when (verbose f) (Printf (MsgFound (Z.of_nat (length srcfilenames))));;
  let srcfilenames := sort_Strings srcfilenames in
  frames ← for_range (body f (Z.of_nat (length srcfilenames))) 0 srcfilenames [];
  when (verbose f) (Printf (MsgParsedAll (destname f)));;
  let delays := make_delays (length frames) (delay f) in
  opfile ← (o ← os_Create w (destname f);
            match o with
            | None => Fatalf (MsgCreateError (destname f))
            | Some opfile => mret opfile
            end);
  err ← EncodeAll w opfile (gif.GIF_ frames delays 0);
  (if err : bool then Printf MsgEncodeError else mret tt);;
  Close opfile.

End Program.
End Factored.

(** ** The program with the geometry written out in [main] *)

Module Inlined.
Section Program.
Context (w : World).

(** The variables the loop body assigns to: the two crop flags, which
    it writes through their pointers, and the frames. *)
Record Vars := Vars_ {
  v_cropwidth : Z;
  v_cropheight : Z;
  v_frames : list image.Paletted
}.

Definition body (f : Flags) (n : Z) (ctr : Z) (filename : string)
    (st : Vars) : M Vars :=
  match Open w filename with
  | None => Printf (MsgSkipRead filename);; mret st
  | Some img =>
      when (verbose f) (Printf (MsgParsing ctr n filename));;
      (* Crop operation. Ignore if there is no crop operation specified *)
      '(cw, ch, img) ←
        (if negb ((v_cropwidth st =? -1) && (v_cropheight st =? -1)
                  && (cropleft f =? 0) && (croptop f =? 0))
         then
           let cw := if v_cropwidth st =? -1
                     then image.Dx (image.Bounds img) else v_cropwidth st in
           let ch := if v_cropheight st =? -1
                     then image.Dy (image.Bounds img) else v_cropheight st in
           when (verbose f)
             (Printf (MsgCropping (cropleft f) (croptop f)
                        (GoInt.sub (GoInt.add (cropleft f) cw) 1)
                        (GoInt.sub (GoInt.add (croptop f) ch) 1)));;
           mret (cw, ch,
                 imaging.Crop img
                   (image.Rect (cropleft f) (croptop f)
                      (GoInt.sub (GoInt.add (cropleft f) cw) 1)
                      (GoInt.sub (GoInt.add (croptop f) ch) 1)))
         else mret (v_cropwidth st, v_cropheight st, img));
      (* Scale operation. Ignore if scale is 1.0 *)
      img ←
        (if negb (scale f =? 1)%float
         then
           let newwidth :=
             GoInt.of_float64
               (GoInt.to_float64 (image.Dx (image.Bounds img)) * scale f)%float in
           let newheight :=
             GoInt.of_float64
               (GoInt.to_float64 (image.Dy (image.Bounds img)) * scale f)%float in
           when (verbose f)
             (Printf (MsgScaling (image.Dx (image.Bounds img))
                        (image.Dy (image.Bounds img)) newwidth newheight));;
           mret (imaging.Resize img newwidth newheight (Lanczos w))
         else mret img);
      (* Rotate operation. Ignore if rotate is 0 *)
      when (negb (rotate f =? 0) && verbose f) (Printf (MsgRotating (rotate f)));;
      let img := if rotate f =? 90 then imaging.Rotate90 img
                 else if rotate f =? 180 then imaging.Rotate180 img
                 else if rotate f =? 270 then imaging.Rotate270 img
                 else img in
      (* Flip operation *)
      when (negb (String.eqb (flip f) "none") && verbose f)
        (Printf (MsgFlipping (flip f)));;
      let img := if String.eqb (flip f) "horizontal" then imaging.FlipH img
                 else if String.eqb (flip f) "vertical" then imaging.FlipV img
                 else img in
      match Encode w img with
      | None => Printf (MsgSkipEncode filename);; mret (Vars_ cw ch (v_frames st))
      | Some buf =>
          match Decode w buf with
          | None => Printf (MsgSkipTemp filename);; mret (Vars_ cw ch (v_frames st))
          | Some tmpimg => mret (Vars_ cw ch (v_frames st ++ [tmpimg]))
          end
      end
  end.

Definition main (f : Flags) : M unit :=
  (if negb (rotate_ok (rotate f))
   then Printf MsgRotateFlag;; PrintDefaults;; os_Exit 1
   else mret tt);;
  (if negb (flip_ok (flip f))
   then Printf MsgFlipFlag;; PrintDefaults;; os_Exit 1
   else mret tt);;
  srcfilenames ← match Glob w (srcglob f) with
                 | None => Fatalf (MsgGlobError (srcglob f))
                 | Some l => mret l
                 end;
  when (verbose f) (Printf (MsgFound (Z.of_nat (length srcfilenames))));;
  let srcfilenames := sort_Strings srcfilenames in
  st ← for_range (body f (Z.of_nat (length srcfilenames))) 0 srcfilenames
         (Vars_ (cropwidth f) (cropheight f) []);
  let frames := v_frames st in
  when (verbose f) (Printf (MsgParsedAll (destname f)));;
  let delays := make_delays (length frames) (delay f) in
  opfile ← (o ← os_Create w (destname f);
            match o with
            | None => Fatalf (MsgCreateError (destname f))
            | Some opfile => mret opfile
            end);
  err ← EncodeAll w opfile (gif.GIF_ frames delays 0);
  (if err : bool then Printf MsgEncodeError else mret tt);;
  Close opfile.

End Program.
End Inlined.

(** ** What a run computes, read off the code *)

(** The state of a fresh run: nothing printed, no file written. *)
Definition start : State := State_ [] ∅.

(** The value a computation returns when run from [start] ([d] if it
    exits instead). *)
Definition returned {A} (m : M A) (d : A) : A :=
  match m start with
  | Ret a _ => a
  | Exit _ _ => d
  end.

(** The images the four helpers return. *)
Definition cropped (cropleft croptop cropwidth cropheight : Z) (img : image.Image) : image.Image :=
  returned (Factored.CropImage cropleft croptop cropwidth cropheight img false) img.

Definition scaled (w : World) (scale : float) (img : image.Image) : image.Image :=
  returned (Factored.ScaleImage w scale img false) img.

Definition rotated (rotate : Z) (img : image.Image) : image.Image :=
  returned (Factored.RotateImage rotate img false) img.

Definition flipped (flip : string) (img : image.Image) : image.Image :=
  returned (Factored.FlipImage flip img false) img.

(** The round trip through [gif.Encode] and [gif.Decode] that turns an
    image into a paletted frame. *)
Definition quantized (w : World) (img : image.Image) : option image.Paletted :=
  buf ← Encode w img; Decode w buf.

(** The frame a source file contributes under the flags [f], if any. *)
Definition frame_of (w : World) (f : Flags) (filename : string) : option image.Paletted :=
  img ← Open w filename;
  quantized w (flipped (flip f) (rotated (rotate f) (scaled w (scale f)
     (cropped (cropleft f) (croptop f) (cropwidth f) (cropheight f) img)))).

Definition fails (w : World) (f : Flags) (filename : string) : bool :=
  match frame_of w f filename with
  | None => true
  | Some _ => false
  end.

(** One of the three lines that report a skipped source. *)
Definition skip_logged (filename : string) (l : list Msg) : Prop :=
  MsgSkipRead filename ∈ l ∨ MsgSkipEncode filename ∈ l ∨ MsgSkipTemp filename ∈ l.

(** The animation assembled from the sources [l], in the order given. *)
Definition assembled (w : World) (f : Flags) (l : list string) : gif.GIF :=
  let frames := omap (frame_of w f) l in
  gif.GIF_ frames (replicate (length frames) (delay f)) 0.

(** The crop flags as the user left them: no crop at all. *)
Definition no_crop (f : Flags) : bool :=
  (cropwidth f =? -1) && (cropheight f =? -1) && (cropleft f =? 0) && (croptop f =? 0).

(** ** A small world to run the program in *)

Module Toy.
Import image.

Definition solid (w h : Z) (c : Color) : Image :=
  imaging.canvas w h (fun _ _ => c).

(** A codec that keeps the size of the image and nothing else. *)
Definition Encode (img : Image) : option (list Byte.byte) :=
  match Byte.of_N (Z.to_N (Dx (Bounds img))), Byte.of_N (Z.to_N (Dy (Bounds img))) with
  | Some a, Some b => Some [a; b]
  | _, _ => None
  end.

Definition Decode (buf : list Byte.byte) : option Paletted :=
  match buf with
  | [a; b] =>
      let w := Z.of_N (Byte.to_N a) in
      let h := Z.of_N (Byte.to_N b) in
      Some (Paletted_ (replicate (Z.to_nat (w * h)) 0) w (Rect 0 0 w h) [0])
  | _ => None
  end.

Fixpoint find (name : string) (files : list (string * option Image)) : option Image :=
  match files with
  | [] => None
  | (n, o) :: files' => if String.eqb n name then o else find name files'
  end.

(** The directory [files] (a name with [None] is a file no decoder
    reads), matched whole by every pattern. *)
Definition world (files : list (string * option Image)) (create write : bool) : World :=
  World_ (fun _ => Some (files.*1))
         (fun name => find name files)
         Encode Decode
         (fun _ => create)
         (fun _ => write)
         (fun img _ _ _ _ => At img 0 0).

(** A frame of the toy codec. *)
Definition frame (w h : Z) : Paletted :=
  Paletted_ (replicate (Z.to_nat (w * h)) 0) w (Rect 0 0 w h) [0].

End Toy.

(** ** Computations that only print *)

(** What a computation prints when run from [start]. *)
Definition logged {A} (m : M A) : list Msg :=
  log (final_state (m start)).

(** [m] returns the same value from every state, leaves the files alone
    and appends the same lines to standard error. *)
Definition logs_only {A} (m : M A) : Prop :=
  ∃ a msgs, ∀ s, m s = Ret a (State_ (log s ++ msgs) (fs s)).

(** What [gif.EncodeAll] leaves in a freshly created file. *)
Definition written (w : World) (g : gif.GIF) : FileData :=
  if gif.rejected g then NoData else Stream g (WriteAll w g).

(** Whether [gif.EncodeAll] returns an error. *)
Definition encode_fails (w : World) (g : gif.GIF) : bool :=
  gif.rejected g || negb (WriteAll w g).

(** ** The crop rectangle *)

(** The rectangle [CropImage] hands to [imaging.Crop]. *)
Definition crop_rect (cropleft croptop cropwidth cropheight : Z) (img : image.Image)
    : image.Rectangle :=
  let cw := if cropwidth =? -1 then image.Dx (image.Bounds img) else cropwidth in
  let ch := if cropheight =? -1 then image.Dy (image.Bounds img) else cropheight in
  image.Rect cropleft croptop
    (GoInt.sub (GoInt.add cropleft cw) 1) (GoInt.sub (GoInt.add croptop ch) 1).

(** [Rectangle.In]: every point of [r] is a point of [b]. *)
Definition inside (r b : image.Rectangle) : bool :=
  image.Empty r
  || ((image.X (image.Min b) <=? image.X (image.Min r))
      && (image.X (image.Max r) <=? image.X (image.Max b))
      && (image.Y (image.Min b) <=? image.Y (image.Min r))
      && (image.Y (image.Max r) <=? image.Y (image.Max b))).

(** ** Concrete runs *)

Module Examples.

Definition img4 : image.Image := Toy.solid 4 4 1.
Definition img8 : image.Image := Toy.solid 8 8 2.
Definition img100 : image.Image := Toy.solid 100 100 7.

(** Two readable sources of different sizes. *)
Definition two_sources : World :=
  Toy.world [("a.jpg"%string, Some img4); ("b.jpg"%string, Some img8)] true true.

(** One readable source. *)
Definition one_source : World :=
  Toy.world [("a.jpg"%string, Some img4)] true true.

Definition large_source : World :=
  Toy.world [("a.jpg"%string, Some img100)] true true.

(** One source that no decoder reads. *)
Definition unreadable_source : World :=
  Toy.world [("a.jpg"%string, None)] true true.

(** A pattern that matches nothing. *)
Definition no_source : World := Toy.world [] true true.

(** A readable source and a destination that takes only part of the
    stream. *)
Definition failing_write : World :=
  Toy.world [("a.jpg"%string, Some img4)] true false.

(** [-cropleft=1] *)
Definition flags_cropleft1 : Flags :=
  Flags_ "*.jpg" "movie.gif" 1 0 (-1) (-1) 3 false 1%float 0 "none".

(** [-cropleft=2 -croptop=2 -cropwidth=10 -cropheight=10] *)
Definition flags_crop_outside : Flags :=
  Flags_ "*.jpg" "movie.gif" 2 2 10 10 3 false 1%float 0 "none".

End Examples.


(** ** Notions used to describe whole runs and images *)

(** The same bounds and the same colour at every point. *)
Definition same_pixels (a b : image.Image) : Prop :=
  image.Bounds a = image.Bounds b ∧ ∀ x y, image.At a x y = image.At b x y.

(** An image of [W] by [H] pixels anchored at the origin whose colour
    outside the bounds is the zero colour, as the decoders and package
    imaging produce them. *)
Definition well_formed (img : image.Image) (W H : Z) : Prop :=
  image.Bounds img = image.Rect 0 0 W H
  ∧ 0 <= W < 2 ^ 62 ∧ 0 <= H < 2 ^ 62
  ∧ ∀ x y, image.In x y (image.Rect 0 0 W H) = false → image.At img x y = 0.

(** The line the loop prints about a source it skips: which of the three
    steps (reading, encoding, decoding back) returned the error. *)
Definition skip_msg (w : World) (f : Flags) (filename : string) : option Msg :=
  match Open w filename with
  | None => Some (MsgSkipRead filename)
  | Some img =>
      match Encode w (flipped (flip f) (rotated (rotate f) (scaled w (scale f)
              (cropped (cropleft f) (croptop f) (cropwidth f) (cropheight f) img)))) with
      | None => Some (MsgSkipEncode filename)
      | Some buf =>
          match Decode w buf with
          | None => Some (MsgSkipTemp filename)
          | Some _ => None
          end
      end
  end.

(** The flags with [-verbose] set to [b]. *)
Definition with_verbose (b : bool) (f : Flags) : Flags :=
  Flags_ (srcglob f) (destname f) (cropleft f) (croptop f) (cropwidth f) (cropheight f)
         (delay f) b (scale f) (rotate f) (flip f).

(** The world in which [filepath.Glob] answers [g]. *)
Definition with_Glob (g : string -> option (list string)) (w : World) : World :=
  World_ g (Open w) (Encode w) (Decode w) (Create w) (WriteAll w) (Lanczos w).

(** The conditions under which the factored [main] reaches the end: valid
    flags, a pattern that matches at least one file, a destination that
    can be created. *)
Definition Factored_completes (w : World) (f : Flags) : bool :=
  rotate_ok (rotate f) && flip_ok (flip f)
  && match Glob w (srcglob f) with Some (_ :: _) => true | _ => false end
  && Create w (destname f).

(** The same for the inlined [main], which accepts an empty match. *)
Definition Inlined_completes (w : World) (f : Flags) : bool :=
  rotate_ok (rotate f) && flip_ok (flip f)
  && match Glob w (srcglob f) with Some _ => true | None => false end
  && Create w (destname f).

(** [m] returns from every state, only prints, and what it returns
    satisfies [P]. *)
Definition returns {A} (P : A -> Prop) (m : M A) : Prop :=
  ∀ s, ∃ a msgs, m s = Ret a (State_ (log s ++ msgs) (fs s)) ∧ P a.

(** [m1] does what [m2] does and prints no line [m2] does not print:
    started with the same files and with a standard error that holds
    some of the lines of the other's, in order, the two end the same way
    (same value or same exit status, same files), and the standard error
    of [m1] still holds some of the lines of [m2]'s, in order. *)
Definition quieter {A} (m1 m2 : M A) : Prop :=
  ∀ s1 s2, log s1 `sublist_of` log s2 -> fs s1 = fs s2 ->
    match m1 s1, m2 s2 with
    | Ret a s1', Ret b s2' => a = b ∧ log s1' `sublist_of` log s2' ∧ fs s1' = fs s2'
    | Exit c s1', Exit d s2' => c = d ∧ log s1' `sublist_of` log s2' ∧ fs s1' = fs s2'
    | _, _ => False
    end.

(** The flags with [-cropwidth] and [-cropheight] set to [cw] and [ch]. *)
Definition with_crop_size (cw ch : Z) (f : Flags) : Flags :=
  Flags_ (srcglob f) (destname f) (cropleft f) (croptop f) cw ch
         (delay f) (verbose f) (scale f) (rotate f) (flip f).

(** What one turn of the inlined loop leaves in the variables it assigns:
    the crop sizes it resolved, and the frame the factored helpers give
    for the crop sizes the turn started with. *)
Definition Inlined_turn (w : World) (f : Flags) (filename : string)
    (st : Inlined.Vars) : Inlined.Vars :=
  match Open w filename with
  | None => st
  | Some img =>
      let crop := negb ((Inlined.v_cropwidth st =? -1) && (Inlined.v_cropheight st =? -1)
                        && (cropleft f =? 0) && (croptop f =? 0)) in
      Inlined.Vars_
        (if crop && (Inlined.v_cropwidth st =? -1)
         then image.Dx (image.Bounds img) else Inlined.v_cropwidth st)
        (if crop && (Inlined.v_cropheight st =? -1)
         then image.Dy (image.Bounds img) else Inlined.v_cropheight st)
        (Inlined.v_frames st
         ++ option_list
              (frame_of w (with_crop_size (Inlined.v_cropwidth st) (Inlined.v_cropheight st) f)
                 filename))
  end.

(** The variables after the loop over [l]. *)
Definition Inlined_turns (w : World) (f : Flags) (l : list string)
    (st : Inlined.Vars) : Inlined.Vars :=
  foldl (fun st filename => Inlined_turn w f filename st) st l.

(** The animation the inlined program assembles from the sources [l]. *)
Definition Inlined_assembled (w : World) (f : Flags) (l : list string) : gif.GIF :=
  let frames :=
    Inlined.v_frames (Inlined_turns w f l (Inlined.Vars_ (cropwidth f) (cropheight f) [])) in
  gif.GIF_ frames (replicate (length frames) (delay f)) 0.

(** The crop sizes with the sentinels resolved against [img]. *)
Definition resolved_width (f : Flags) (img : image.Image) : Z :=
  if cropwidth f =? -1 then image.Dx (image.Bounds img) else cropwidth f.

Definition resolved_height (f : Flags) (img : image.Image) : Z :=
  if cropheight f =? -1 then image.Dy (image.Bounds img) else cropheight f.

(** * Proofs *)

(** ** The monad *)

Lemma state_eta (s : State) : State_ (log s) (fs s) = s.
Proof. by destruct s. Qed.

Lemma bind_run {A B} (m : M A) (k : A -> M B) (s s' : State) (a : A) :
  m s = Ret a s' -> (m ≫= k) s = k a s'.
Proof. intros H. unfold mbind, M_bind. by rewrite H. Qed.

Lemma bind_exit {A B} (m : M A) (k : A -> M B) (s s' : State) (c : Z) :
  m s = Exit c s' -> (m ≫= k) s = Exit c s'.
Proof. intros H. unfold mbind, M_bind. by rewrite H. Qed.

Lemma lo_ret {A} (a : A) : logs_only (mret a).
Proof.
  exists a, []. intros s. rewrite app_nil_r, state_eta. reflexivity.
Qed.

Lemma lo_Printf (m : Msg) : logs_only (Printf m).
Proof. exists tt, [m]. reflexivity. Qed.

Lemma lo_bind {A B} (m : M A) (k : A -> M B) :
  logs_only m -> (forall a, logs_only (k a)) -> logs_only (m ≫= k).
Proof.
  intros (a & msgs & Hm) Hk.
  destruct (Hk a) as (b & msgs' & Hka).
  exists b, (msgs ++ msgs'). intros s.
  rewrite (bind_run _ _ _ _ _ (Hm s)), Hka. simpl.
  by rewrite app_assoc.
Qed.

Lemma lo_when (b : bool) (m : M unit) : logs_only m -> logs_only (when b m).
Proof. destruct b; [done | intros _; apply lo_ret]. Qed.

Lemma logs_only_run {A} (m : M A) (d : A) (s : State) :
  logs_only m -> m s = Ret (returned m d) (State_ (log s ++ logged m) (fs s)).
Proof.
  intros (a & msgs & H). unfold returned, logged.
  rewrite (H start), (H s). reflexivity.
Qed.

Ltac lo_step :=
  first [ apply lo_ret | apply lo_Printf | apply lo_when
        | apply lo_bind; [ | intros ? ] ].

Ltac lo_solve := repeat first [ lo_step | case_match ].

Lemma lo_CropImage l t cw ch img v : logs_only (Factored.CropImage l t cw ch img v).
Proof. unfold Factored.CropImage. lo_solve. Qed.

Lemma lo_ScaleImage w sc img v : logs_only (Factored.ScaleImage w sc img v).
Proof. unfold Factored.ScaleImage. lo_solve. Qed.

Lemma lo_RotateImage r img v : logs_only (Factored.RotateImage r img v).
Proof. unfold Factored.RotateImage. lo_solve. Qed.

Lemma lo_FlipImage fl img v : logs_only (Factored.FlipImage fl img v).
Proof. unfold Factored.FlipImage. lo_solve. Qed.

(** The image a helper returns does not depend on [verbose]. *)
Lemma CropImage_returned l t cw ch img v d :
  returned (Factored.CropImage l t cw ch img v) d = cropped l t cw ch img.
Proof.
  unfold cropped, returned, Factored.CropImage.
  destruct (negb _); [ | reflexivity ].
  destruct v; reflexivity.
Qed.

Lemma ScaleImage_returned w sc img v d :
  returned (Factored.ScaleImage w sc img v) d = scaled w sc img.
Proof.
  unfold scaled, returned, Factored.ScaleImage.
  destruct (negb _); [ | reflexivity ].
  destruct v; reflexivity.
Qed.

Lemma RotateImage_returned r img v d :
  returned (Factored.RotateImage r img v) d = rotated r img.
Proof.
  unfold rotated, returned, Factored.RotateImage.
  destruct (negb _), v; reflexivity.
Qed.

Lemma FlipImage_returned fl img v d :
  returned (Factored.FlipImage fl img v) d = flipped fl img.
Proof.
  unfold flipped, returned, Factored.FlipImage.
  destruct (negb _), v; reflexivity.
Qed.

(** Each helper returns its image from every state, and only prints. *)
Lemma CropImage_run l t cw ch img v s :
  Factored.CropImage l t cw ch img v s
  = Ret (cropped l t cw ch img)
        (State_ (log s ++ logged (Factored.CropImage l t cw ch img v)) (fs s)).
Proof.
  rewrite (logs_only_run _ img s (lo_CropImage _ _ _ _ _ _)).
  by rewrite CropImage_returned.
Qed.

Lemma ScaleImage_run w sc img v s :
  Factored.ScaleImage w sc img v s
  = Ret (scaled w sc img)
        (State_ (log s ++ logged (Factored.ScaleImage w sc img v)) (fs s)).
Proof.
  rewrite (logs_only_run _ img s (lo_ScaleImage _ _ _ _)).
  by rewrite ScaleImage_returned.
Qed.

Lemma RotateImage_run r img v s :
  Factored.RotateImage r img v s
  = Ret (rotated r img)
        (State_ (log s ++ logged (Factored.RotateImage r img v)) (fs s)).
Proof.
  rewrite (logs_only_run _ img s (lo_RotateImage _ _ _)).
  by rewrite RotateImage_returned.
Qed.

Lemma FlipImage_run fl img v s :
  Factored.FlipImage fl img v s
  = Ret (flipped fl img)
        (State_ (log s ++ logged (Factored.FlipImage fl img v)) (fs s)).
Proof.
  rewrite (logs_only_run _ img s (lo_FlipImage _ _ _)).
  by rewrite FlipImage_returned.
Qed.

Lemma when_run (b : bool) (m : Msg) (s : State) :
  when b (Printf m) s = Ret tt (State_ (log s ++ (if b then [m] else [])) (fs s)).
Proof.
  destruct b; simpl; [ reflexivity | ].
  by rewrite app_nil_r, state_eta.
Qed.

(** The four helpers in the order in which [main] calls them. *)
Lemma geometry_run w f img s :
  ∃ msgs,
    (img1 ← Factored.CropImage (cropleft f) (croptop f) (cropwidth f) (cropheight f)
              img (verbose f);
     img2 ← Factored.ScaleImage w (scale f) img1 (verbose f);
     img3 ← Factored.RotateImage (rotate f) img2 (verbose f);
     Factored.FlipImage (flip f) img3 (verbose f)) s
    = Ret (flipped (flip f) (rotated (rotate f) (scaled w (scale f)
             (cropped (cropleft f) (croptop f) (cropwidth f) (cropheight f) img))))
          (State_ (log s ++ msgs) (fs s)).
Proof.
  eexists.
  erewrite bind_run by apply CropImage_run.
  erewrite bind_run by apply ScaleImage_run.
  erewrite bind_run by apply RotateImage_run.
  rewrite FlipImage_run. cbn [log fs].
  rewrite <- !app_assoc. reflexivity.
Qed.

Lemma skip_run {A} (m : Msg) (a : A) (s : State) :
  (Printf m;; mret a) s = Ret a (State_ (log s ++ [m]) (fs s)).
Proof. reflexivity. Qed.

(** One turn of the loop: the frame of the file is appended, or the file
    is reported and skipped; nothing else changes. *)
Lemma body_spec w f n ctr filename frames s :
  ∃ msgs,
    Factored.body w f n ctr filename frames s
    = Ret (frames ++ option_list (frame_of w f filename))
          (State_ (log s ++ msgs) (fs s))
    ∧ (frame_of w f filename = None -> skip_logged filename msgs).
Proof.
  unfold Factored.body, frame_of, quantized, skip_logged.
  destruct (Open w filename) as [img|]; cbn [mbind option_bind].
  - erewrite bind_run by apply when_run.
    erewrite bind_run by apply CropImage_run.
    erewrite bind_run by apply ScaleImage_run.
    erewrite bind_run by apply RotateImage_run.
    erewrite bind_run by apply FlipImage_run.
    cbn [log fs]. rewrite <- !app_assoc.
    destruct (Encode w _) as [buf|] eqn:HE; [ destruct (Decode w buf) as [tmpimg|] eqn:HD | ];
      cbn [mbind option_bind option_list]; rewrite ?HD; cbn [option_list].
    + eexists. split; [ reflexivity | done ].
    + rewrite skip_run. cbn [log fs]. rewrite <- !app_assoc, app_nil_r.
      eexists. split; [ reflexivity | ].
      intros _. right. right. rewrite !elem_of_app, list_elem_of_singleton. tauto.
    + rewrite skip_run. cbn [log fs]. rewrite <- !app_assoc, app_nil_r.
      eexists. split; [ reflexivity | ].
      intros _. right. left. rewrite !elem_of_app, list_elem_of_singleton. tauto.
  - exists [MsgSkipRead filename]. split.
    + cbn. by rewrite app_nil_r.
    + intros _. left. apply list_elem_of_singleton. reflexivity.
Qed.

Lemma ret_bind {A B} (a : A) (k : A -> M B) (s : State) :
  (mret a ≫= k) s = k a s.
Proof. reflexivity. Qed.

Lemma skip_logged_app_l x l1 l2 : skip_logged x l1 -> skip_logged x (l1 ++ l2).
Proof. unfold skip_logged. rewrite !elem_of_app. tauto. Qed.

Lemma skip_logged_app_r x l1 l2 : skip_logged x l2 -> skip_logged x (l1 ++ l2).
Proof. unfold skip_logged. rewrite !elem_of_app. tauto. Qed.

(** The whole loop: the frames of the sources that did not fail, in the
    order of the sources; every failure is reported. *)
Lemma loop_spec w f n l :
  forall ctr frames s,
  ∃ msgs,
    for_range (Factored.body w f n) ctr l frames s
    = Ret (frames ++ omap (frame_of w f) l) (State_ (log s ++ msgs) (fs s))
    ∧ (forall x, x ∈ l -> frame_of w f x = None -> skip_logged x msgs).
Proof.
  induction l as [|x l IH]; intros ctr frames s.
  - exists []. split.
    + cbn. by rewrite !app_nil_r, state_eta.
    + intros x Hx. by apply elem_of_nil in Hx.
  - destruct (body_spec w f n ctr x frames s) as (m1 & Hb & Hs1).
    destruct (IH (ctr + 1) (frames ++ option_list (frame_of w f x))
                 (State_ (log s ++ m1) (fs s))) as (m2 & Hl & Hs2).
    exists (m1 ++ m2). split.
    + cbn [for_range]. erewrite bind_run by exact Hb.
      rewrite Hl. cbn [log fs].
      rewrite <- !app_assoc. f_equal. f_equal.
      change (omap (frame_of w f) (x :: l))
        with (match frame_of w f x with
              | Some y => y :: omap (frame_of w f) l
              | None => omap (frame_of w f) l
              end).
      destruct (frame_of w f x); reflexivity.
    + intros y Hy Hnone. apply elem_of_cons in Hy as [->|Hy].
      * apply skip_logged_app_l. auto.
      * apply skip_logged_app_r. eauto.
Qed.

(** The delays: one entry per frame, all equal to the flag. *)
Lemma make_delays_from (d : Z) (m : nat) :
  forall k : nat,
    foldl (fun delays j => <[j := d]> delays) (replicate k d ++ replicate m 0) (seq k m)
    = replicate (k + m) d.
Proof.
  induction m as [|m IH]; intros k.
  - cbn. by rewrite app_nil_r, Nat.add_0_r.
  - cbn [seq foldl replicate].
    rewrite (insert_app_r_alt (replicate k d) (0 :: replicate m 0) k d)
      by (rewrite length_replicate; lia).
    rewrite length_replicate, Nat.sub_diag. cbn [insert list_insert].
    rewrite (cons_middle d), app_assoc, <- replicate_S_end, IH.
    f_equal. lia.
Qed.

Lemma make_delays_replicate (n : nat) (d : Z) : make_delays n d = replicate n d.
Proof. exact (make_delays_from d n 0%nat). Qed.

(** [sort.Strings] rearranges and orders its argument. *)
Lemma insert_sorted_perm s l : insert_sorted s l ≡ₚ s :: l.
Proof.
  induction l as [|t l IH]; cbn; [ done | ].
  destruct (String.leb s t); [ done | ].
  rewrite IH. apply Permutation_swap.
Qed.

Lemma sort_Strings_perm l : sort_Strings l ≡ₚ l.
Proof.
  induction l as [|s l IH]; cbn; [ done | ].
  fold (sort_Strings l). by rewrite insert_sorted_perm, IH.
Qed.

Lemma sort_Strings_length l : length (sort_Strings l) = length l.
Proof. by rewrite sort_Strings_perm. Qed.

Lemma sort_Strings_elem x l : x ∈ sort_Strings l <-> x ∈ l.
Proof. by rewrite sort_Strings_perm. Qed.

Lemma insert_sorted_Sorted s l :
  Sorted (fun a b => String.leb a b = true) l ->
  Sorted (fun a b => String.leb a b = true) (insert_sorted s l).
Proof.
  induction 1 as [|t l Hl IH Hhd]; cbn [insert_sorted].
  - repeat constructor.
  - destruct (String.leb s t) eqn:E.
    + constructor; [ by constructor | by constructor ].
    + assert (Hts : String.leb t s = true)
        by (destruct (String.leb_total s t); congruence).
      constructor; [ exact IH | ].
      destruct Hhd as [|u l' Htu]; cbn [insert_sorted]; [ by constructor | ].
      destruct (String.leb s u); by constructor.
Qed.

Lemma sort_Strings_Sorted l :
  Sorted (fun a b => String.leb a b = true) (sort_Strings l).
Proof.
  induction l as [|s l IH]; cbn; [ constructor | ].
  fold (sort_Strings l). by apply insert_sorted_Sorted.
Qed.

(** Already sorted sources stay as they are. *)
Lemma sort_Strings_sorted l :
  Sorted (fun s t => String.leb s t = true) l -> sort_Strings l = l.
Proof.
  induction 1 as [|s l Hl IH Hhd]; [ done | ].
  cbn. fold (sort_Strings l). rewrite IH.
  destruct Hhd as [|t l' Hst]; cbn; [ done | ].
  by rewrite Hst.
Qed.

Lemma length_eqb_0 {A} (l : list A) : l ≠ [] -> (Z.of_nat (length l) =? 0) = false.
Proof. destruct l; [ done | intros _; apply Z.eqb_neq; cbn; lia ]. Qed.

Lemma os_Create_run w name s :
  (o ← os_Create w name;
   match o with
   | None => Fatalf (MsgCreateError name)
   | Some opfile => mret opfile
   end) s
  = if Create w name
    then Ret name (State_ (log s) (<[name := NoData]> (fs s)))
    else Exit 1 (State_ (log s ++ [MsgCreateError name]) (fs s)).
Proof.
  unfold os_Create, mbind, M_bind. destruct (Create w name); reflexivity.
Qed.

Lemma EncodeAll_run w name g l m :
  EncodeAll w name g (State_ l (<[name := NoData]> m))
  = Ret (encode_fails w g) (State_ l (<[name := written w g]> m)).
Proof.
  unfold EncodeAll, encode_fails, written. cbn [log fs].
  destruct (gif.rejected g); [ reflexivity | ].
  destruct (WriteAll w g); cbn; by rewrite insert_insert_eq.
Qed.

(** The end of [main], from the frames on. *)
Lemma assemble_run w f frames s :
  (when (verbose f) (Printf (MsgParsedAll (destname f)));;
   let delays := make_delays (length frames) (delay f) in
   opfile ← (o ← os_Create w (destname f);
             match o with
             | None => Fatalf (MsgCreateError (destname f))
             | Some opfile => mret opfile
             end);
   err ← EncodeAll w opfile (gif.GIF_ frames delays 0);
   (if err : bool then Printf MsgEncodeError else mret tt);;
   Close opfile) s
  = let g := gif.GIF_ frames (replicate (length frames) (delay f)) 0 in
    let pre := if verbose f then [MsgParsedAll (destname f)] else [] in
    if Create w (destname f)
    then Ret tt (State_ (log s ++ pre ++ (if encode_fails w g then [MsgEncodeError] else []))
                        (<[destname f := written w g]> (fs s)))
    else Exit 1 (State_ (log s ++ pre ++ [MsgCreateError (destname f)]) (fs s)).
Proof.
  erewrite bind_run by apply when_run.
  cbv zeta. rewrite make_delays_replicate.
  destruct (Create w (destname f)) eqn:HC.
  - erewrite bind_run by (rewrite os_Create_run, HC; reflexivity).
    cbn [log fs].
    erewrite bind_run by apply EncodeAll_run.
    unfold Close. destruct (encode_fails w _).
    + rewrite skip_run. cbn [log fs]. by rewrite <- app_assoc.
    + rewrite ret_bind. by rewrite app_nil_r.
  - erewrite bind_exit by (rewrite os_Create_run, HC; reflexivity).
    cbn [log fs]. by rewrite <- app_assoc.
Qed.

(** A run of the factored program on a valid command line that matches
    at least one source. *)
Lemma main_run w f l s :
  rotate_ok (rotate f) = true ->
  flip_ok (flip f) = true ->
  Glob w (srcglob f) = Some l ->
  l ≠ [] ->
  ∃ msgs,
    Factored.main w f s
    = (let g := assembled w f (sort_Strings l) in
       if Create w (destname f)
       then Ret tt (State_ (log s ++ msgs ++ (if encode_fails w g then [MsgEncodeError] else []))
                           (<[destname f := written w g]> (fs s)))
       else Exit 1 (State_ (log s ++ msgs ++ [MsgCreateError (destname f)]) (fs s)))
    ∧ (forall x, x ∈ sort_Strings l -> frame_of w f x = None -> skip_logged x msgs).
Proof.
  intros Hr Hf HG Hl. unfold Factored.main.
  rewrite Hr, Hf, HG. cbn [negb]. rewrite !ret_bind.
  rewrite (length_eqb_0 l Hl), ret_bind.
  erewrite bind_run by apply when_run.
  destruct (loop_spec w f (Z.of_nat (length (sort_Strings l))) (sort_Strings l) 0 []
              (State_ (log s ++ (if verbose f then [MsgFound (Z.of_nat (length l))] else []))
                      (fs s)))
    as (msgs & Hloop & Hskip).
  cbv zeta.
  erewrite bind_run by exact Hloop.
  rewrite app_nil_l.
  pose proof (assemble_run w f (omap (frame_of w f) (sort_Strings l))) as Ha.
  cbv zeta in Ha. rewrite Ha. cbn [log fs].
  unfold assembled.
  exists ((if verbose f then [MsgFound (Z.of_nat (length l))] else []) ++ msgs
          ++ (if verbose f then [MsgParsedAll (destname f)] else [])).
  split.
  - destruct (Create w (destname f)); rewrite <- !app_assoc; reflexivity.
  - intros x Hx Hn. apply skip_logged_app_r, skip_logged_app_l. eauto.
Qed.

(** ** Geometry *)

Lemma wrap_small (z : Z) : - 2 ^ 63 <= z < 2 ^ 63 -> GoInt.wrap z = z.
Proof.
  intros H. unfold GoInt.wrap.
  rewrite Z.mod_small by lia. lia.
Qed.

Lemma Rect_ordered (x0 y0 x1 y1 : Z) :
  x0 <= x1 -> y0 <= y1 ->
  image.Rect x0 y0 x1 y1 = image.Rectangle_ (image.Pt x0 y0) (image.Pt x1 y1).
Proof.
  intros Hx Hy. unfold image.Rect.
  destruct (Z.gtb_spec x0 x1); [ lia | ].
  destruct (Z.gtb_spec y0 y1); [ lia | ].
  reflexivity.
Qed.

(** Unless the crop flags are all at their defaults, the helper returns
    [imaging.Crop] of the rectangle [crop_rect]. *)
Lemma cropped_eq l t cw ch img :
  cropped l t cw ch img
  = if (cw =? -1) && (ch =? -1) && (l =? 0) && (t =? 0) then img
    else imaging.Crop img (crop_rect l t cw ch img).
Proof.
  unfold cropped, returned, Factored.CropImage.
  destruct ((cw =? -1) && (ch =? -1) && (l =? 0) && (t =? 0)); reflexivity.
Qed.

(** [imaging.Crop] keeps what the rectangle and the image share. *)
Lemma Crop_bounds img rect :
  image.Bounds (imaging.Crop img rect)
  = let r := image.Intersect rect (image.Bounds img) in
    if image.Empty r then image.ZR
    else image.Rect 0 0 (image.Dx r) (image.Dy r).
Proof.
  unfold imaging.Crop. cbv zeta.
  destruct (image.Empty _); reflexivity.
Qed.

Ltac no_if t :=
  lazymatch t with
  | context [ if _ then _ else _ ] => fail
  | _ => idtac
  end.

Ltac zcases :=
  repeat (cbn [image.X image.Y image.Min image.Max orb andb negb];
          match goal with
          | |- context [ ?a <? ?b ] =>
              no_if a; no_if b; destruct (Z.ltb_spec a b); try lia
          | |- context [ ?a >? ?b ] =>
              no_if a; no_if b; destruct (Z.gtb_spec a b); try lia
          | |- context [ ?a >=? ?b ] =>
              no_if a; no_if b; destruct (Z.geb_spec a b); try lia
          end).

(** A rectangle inside the image is cut out whole. *)
Lemma Crop_inside img (W H x0 y0 x1 y1 : Z) :
  image.Bounds img = image.Rect 0 0 W H ->
  0 <= x0 < x1 -> 0 <= y0 < y1 -> x1 <= W -> y1 <= H ->
  x1 < 2 ^ 63 -> y1 < 2 ^ 63 ->
  image.Bounds (imaging.Crop img (image.Rect x0 y0 x1 y1))
  = image.Rect 0 0 (x1 - x0) (y1 - y0).
Proof.
  intros HB Hx Hy HW HH Hx1 Hy1.
  rewrite Crop_bounds, HB.
  rewrite !Rect_ordered by lia.
  unfold image.Intersect, image.Empty. zcases.
  unfold image.Dx, image.Dy, GoInt.sub. cbn [image.X image.Y image.Min image.Max].
  rewrite !wrap_small by lia. rewrite ?Rect_ordered by lia. reflexivity.
Qed.

(** The width and height left after cropping never exceed those of the
    rectangle asked for. *)
Lemma Crop_at_most img (x0 y0 x1 y1 : Z) :
  - 2 ^ 62 <= x0 <= x1 -> x1 < 2 ^ 62 -> - 2 ^ 62 <= y0 <= y1 -> y1 < 2 ^ 62 ->
  ∃ dx dy, image.Bounds (imaging.Crop img (image.Rect x0 y0 x1 y1))
           = image.Rectangle_ (image.Pt 0 0) (image.Pt dx dy)
           ∧ 0 <= dx <= x1 - x0 ∧ 0 <= dy <= y1 - y0.
Proof.
  intros Hx Hx1 Hy Hy1.
  rewrite Crop_bounds, Rect_ordered by lia.
  destruct (image.Bounds img) as [[a b] [c d]].
  unfold image.Intersect, image.Empty.
  zcases;
    try (exists 0, 0; split; [ reflexivity | lia ]);
    unfold image.Dx, image.Dy, GoInt.sub; cbn [image.X image.Y image.Min image.Max];
    rewrite !wrap_small by lia;
    (rewrite Rect_ordered by lia); eexists _, _; (split; [ reflexivity | lia ]).
Qed.

(** The crop flags resolved against an image anchored at the origin: an
    area of the image is cut one column and one row short. *)
Lemma cropped_inside l t cw ch img (W H : Z) :
  image.Bounds img = image.Rect 0 0 W H ->
  0 <= W < 2 ^ 62 -> 0 <= H < 2 ^ 62 ->
  ((cw =? -1) && (ch =? -1) && (l =? 0) && (t =? 0)) = false ->
  let cw' := if cw =? -1 then W else cw in
  let ch' := if ch =? -1 then H else ch in
  0 <= l -> 0 <= t -> 2 <= cw' -> 2 <= ch' ->
  l + cw' - 1 <= W -> t + ch' - 1 <= H ->
  image.Bounds (cropped l t cw ch img) = image.Rect 0 0 (cw' - 1) (ch' - 1).
Proof.
  intros HB HW HH Hn cw' ch' Hl Ht Hcw Hch Hr Hb.
  rewrite cropped_eq, Hn. unfold crop_rect.
  assert (HDx : image.Dx (image.Bounds img) = W).
  { rewrite HB, Rect_ordered by lia. unfold image.Dx, GoInt.sub. cbn.
    rewrite wrap_small; lia. }
  assert (HDy : image.Dy (image.Bounds img) = H).
  { rewrite HB, Rect_ordered by lia. unfold image.Dy, GoInt.sub. cbn.
    rewrite wrap_small; lia. }
  rewrite HDx, HDy. fold cw' ch'.
  unfold GoInt.add, GoInt.sub. rewrite !wrap_small by (rewrite ?wrap_small; lia).
  rewrite (Crop_inside img W H) by (try assumption; lia).
  f_equal; lia.
Qed.

Lemma cropped_10_10_50_50 img :
  cropped 10 10 50 50 img = imaging.Crop img (image.Rect 10 10 59 59).
Proof. rewrite cropped_eq. reflexivity. Qed.

Lemma scaled_twice_49 w img :
  image.Bounds img = image.Rect 0 0 49 49 ->
  image.Bounds (scaled w 2 img) = image.Rect 0 0 98 98.
Proof.
  intros HB. unfold scaled, returned, Factored.ScaleImage, imaging.Resize.
  rewrite HB. vm_compute. reflexivity.
Qed.

(** ** The claims *)

(** C9. The documented no-op values are identities: [CropImage] with
    left 0, top 0, width -1 and height -1 returns the very image it was
    given, and so does [ScaleImage] with factor 1.0; neither prints
    anything nor touches a file. *)
Theorem noop_parameters_are_identities :
  forall (w : World) (img : image.Image) (v : bool) (s : State),
    Factored.CropImage 0 0 (-1) (-1) img v s = Ret img s
    ∧ Factored.ScaleImage w 1 img v s = Ret img s
    ∧ cropped 0 0 (-1) (-1) img = img
    ∧ scaled w 1 img = img.
Proof. intros w img v s. repeat split; reflexivity. Qed.

(** C3 (the code departs from the claim). A 2 by 2 crop at the origin of
    a 4 by 4 image returns 1 by 1 pixel, and the full-extent sentinel with
    a left offset of 1 returns 3 by 3 pixels, a row short of the image's
    4 rows: [CropImage] passes the inclusive corner [left+width-1],
    [top+height-1] to [image.Rect], which takes it as exclusive. *)
Theorem CropImage_cuts_one_row_and_column_short :
  (forall s, Factored.CropImage 0 0 2 2 Examples.img4 false s
             = Ret (imaging.Crop Examples.img4 (image.Rect 0 0 1 1)) s)
  ∧ image.Bounds (cropped 0 0 2 2 Examples.img4) = image.Rect 0 0 1 1
  ∧ image.Bounds (cropped 1 0 (-1) (-1) Examples.img4) = image.Rect 0 0 3 3.
Proof. repeat split. Qed.

(** C4, as the claim states it, fails: a crop rectangle reaching outside
    a readable 4 by 4 image does not make the frame fail; the frame is
    kept, cut down to the 2 by 2 pixels the rectangle shares with the
    image. *)
Lemma out_of_bounds_crop_is_clamped_not_reported :
  ¬ (forall (w : World) (f : Flags) (filename : string) (img : image.Image),
       Open w filename = Some img ->
       no_crop f = false ->
       inside (crop_rect (cropleft f) (croptop f) (cropwidth f) (cropheight f) img)
              (image.Bounds img) = false ->
       frame_of w f filename = None).
Proof.
  intros H.
  specialize (H Examples.one_source Examples.flags_crop_outside "a.jpg"%string
                Examples.img4 eq_refl eq_refl eq_refl).
  vm_compute in H. discriminate H.
Qed.

(** C4, amended. The geometry stage has no failure path: for every
    configuration and image the four helpers return an image and only
    print; a crop rectangle is intersected with the image's bounds, so one
    that reaches outside is clamped (and one that misses the image gives
    the empty image); and a turn of the loop skips its source only when
    reading it, encoding it or decoding it back fails. *)
Theorem geometry_stage_never_fails :
  (forall (w : World) (f : Flags) (img : image.Image) (s : State),
     ∃ img' msgs,
       (img1 ← Factored.CropImage (cropleft f) (croptop f) (cropwidth f) (cropheight f)
                 img (verbose f);
        img2 ← Factored.ScaleImage w (scale f) img1 (verbose f);
        img3 ← Factored.RotateImage (rotate f) img2 (verbose f);
        Factored.FlipImage (flip f) img3 (verbose f)) s
       = Ret img' (State_ (log s ++ msgs) (fs s)))
  ∧ (forall (l t cw ch : Z) (img : image.Image),
       image.Bounds (cropped l t cw ch img)
       = if (cw =? -1) && (ch =? -1) && (l =? 0) && (t =? 0) then image.Bounds img
         else let r := image.Intersect (crop_rect l t cw ch img) (image.Bounds img) in
              if image.Empty r then image.ZR
              else image.Rect 0 0 (image.Dx r) (image.Dy r))
  ∧ (forall (w : World) (f : Flags) (n ctr : Z) (filename : string)
            (frames : list image.Paletted) (s : State),
       ∃ msgs,
         Factored.body w f n ctr filename frames s
         = Ret (frames ++ option_list
                  (img ← Open w filename;
                   quantized w (flipped (flip f) (rotated (rotate f) (scaled w (scale f)
                     (cropped (cropleft f) (croptop f) (cropwidth f) (cropheight f) img))))))
               (State_ (log s ++ msgs) (fs s))).
Proof.
  split; [ | split ].
  - intros w f img s. destruct (geometry_run w f img s) as [msgs H]. eauto.
  - intros l t cw ch img. rewrite cropped_eq.
    destruct ((cw =? -1) && (ch =? -1) && (l =? 0) && (t =? 0)); [ reflexivity | ].
    apply Crop_bounds.
  - intros w f n ctr filename frames s.
    destruct (body_spec w f n ctr filename frames s) as (msgs & H & _).
    exists msgs. exact H.
Qed.

(** C5. Every frame goes through Crop, then Scale, then Rotate, then
    Flip: each helper is given the image the one before it returned, and
    what the last one returns is what gets quantized.  The order matters:
    on an image of at least 59 by 59 pixels, cropping (10,10,50,50) and
    then scaling by 2 differs from scaling by 2 and then cropping the same
    rectangle. *)
Theorem crop_scale_rotate_flip_order :
  (forall (w : World) (f : Flags) (n ctr : Z) (filename : string)
          (frames : list image.Paletted) (s : State) (img : image.Image),
     Open w filename = Some img ->
     ∃ img1 img2 img3 img4 s1 s2 s3 s4 s',
       Factored.CropImage (cropleft f) (croptop f) (cropwidth f) (cropheight f) img (verbose f)
         (State_ (log s ++ (if verbose f then [MsgParsing ctr n filename] else [])) (fs s))
       = Ret img1 s1
       ∧ Factored.ScaleImage w (scale f) img1 (verbose f) s1 = Ret img2 s2
       ∧ Factored.RotateImage (rotate f) img2 (verbose f) s2 = Ret img3 s3
       ∧ Factored.FlipImage (flip f) img3 (verbose f) s3 = Ret img4 s4
       ∧ Factored.body w f n ctr filename frames s
         = Ret (frames ++ option_list (quantized w img4)) s')
  ∧ (forall (w : World) (img : image.Image) (W H : Z),
       image.Bounds img = image.Rect 0 0 W H ->
       59 <= W -> 59 <= H ->
       scaled w 2 (cropped 10 10 50 50 img) ≠ cropped 10 10 50 50 (scaled w 2 img)).
Proof.
  split.
  - intros w f n ctr filename frames s img HO.
    destruct (body_spec w f n ctr filename frames s) as (msgs & Hb & _).
    unfold frame_of in Hb. rewrite HO in Hb. cbn [mbind option_bind] in Hb.
    do 9 eexists.
    split; [ apply CropImage_run | ].
    split; [ apply ScaleImage_run | ].
    split; [ apply RotateImage_run | ].
    split; [ apply FlipImage_run | ].
    exact Hb.
  - intros w img W H HB HW HH Heq.
    apply (f_equal image.Bounds) in Heq.
    rewrite (scaled_twice_49 w) in Heq.
    + rewrite cropped_10_10_50_50 in Heq.
      destruct (Crop_at_most (scaled w 2 img) 10 10 59 59) as (dx & dy & Hc & Hdx & Hdy);
        try lia.
      rewrite Hc in Heq. rewrite Rect_ordered in Heq by lia.
      injection Heq as Hx Hy. lia.
    + rewrite cropped_10_10_50_50.
      rewrite (Crop_inside img W H) by (try assumption; lia).
      reflexivity.
Qed.

Lemma crop_scale_rotate_flip_order_witness :
  (∃ img1 img2 img3 img4 s1 s2 s3 s4 s',
     Factored.CropImage 10 10 50 50 Examples.img100 false
       (State_ ([] ++ []) ∅) = Ret img1 s1
     ∧ Factored.ScaleImage Examples.large_source 2 img1 false s1 = Ret img2 s2
     ∧ Factored.RotateImage 0 img2 false s2 = Ret img3 s3
     ∧ Factored.FlipImage "none" img3 false s3 = Ret img4 s4
     ∧ Factored.body Examples.large_source
         (Flags_ "*.jpg" "movie.gif" 10 10 50 50 3 false 2%float 0 "none")
         1 0 "a.jpg" [] start
       = Ret ([] ++ option_list (quantized Examples.large_source img4)) s')
  ∧ scaled Examples.large_source 2 (cropped 10 10 50 50 Examples.img100)
    ≠ cropped 10 10 50 50 (scaled Examples.large_source 2 Examples.img100).
Proof.
  split.
  - apply (proj1 crop_scale_rotate_flip_order Examples.large_source
             (Flags_ "*.jpg" "movie.gif" 10 10 50 50 3 false 2%float 0 "none")
             1 0 "a.jpg"%string [] start Examples.img100).
    reflexivity.
  - apply (proj2 crop_scale_rotate_flip_order Examples.large_source Examples.img100 100 100).
    + reflexivity.
    + lia.
    + lia.
Defined.

(** ** Runs of the factored program that end before the loop *)

Lemma Factored_bad_rotate w f s :
  rotate_ok (rotate f) = false ->
  Factored.main w f s = Exit 1 (State_ (log s ++ [MsgRotateFlag; Usage]) (fs s)).
Proof.
  intros H. unfold Factored.main. rewrite H. cbn [negb].
  erewrite bind_exit by reflexivity.
  cbn [log fs]. by rewrite <- app_assoc.
Qed.

Lemma Factored_bad_flip w f s :
  rotate_ok (rotate f) = true ->
  flip_ok (flip f) = false ->
  Factored.main w f s = Exit 1 (State_ (log s ++ [MsgFlipFlag; Usage]) (fs s)).
Proof.
  intros Hr H. unfold Factored.main. rewrite Hr, H. cbn [negb].
  rewrite ret_bind.
  erewrite bind_exit by reflexivity.
  cbn [log fs]. by rewrite <- app_assoc.
Qed.

Lemma Factored_glob_error w f s :
  rotate_ok (rotate f) = true ->
  flip_ok (flip f) = true ->
  Glob w (srcglob f) = None ->
  Factored.main w f s = Exit 1 (State_ (log s ++ [MsgGlobError (srcglob f)]) (fs s)).
Proof.
  intros Hr Hf H. unfold Factored.main. rewrite Hr, Hf, H. cbn [negb].
  rewrite !ret_bind.
  erewrite bind_exit by reflexivity.
  reflexivity.
Qed.

Lemma Factored_no_source w f s :
  rotate_ok (rotate f) = true ->
  flip_ok (flip f) = true ->
  Glob w (srcglob f) = Some [] ->
  Factored.main w f s = Exit 1 (State_ (log s ++ [MsgNoSource (srcglob f)]) (fs s)).
Proof.
  intros Hr Hf H. unfold Factored.main. rewrite Hr, Hf, H. cbn [negb].
  rewrite !ret_bind. cbn [length Z.of_nat Z.eqb].
  erewrite bind_exit by reflexivity.
  reflexivity.
Qed.

(** The factored program meets what C6 asks: a bad [-rotate], a bad
    [-flip] or a pattern without a match ends the run with status 1 before
    any source is opened (only the diagnostic is printed, no file is
    written); once the loop is reached, only a destination that cannot be
    created ends the run with a status other than 0. *)
Lemma Factored_configuration_errors_are_fatal w f s :
  (rotate_ok (rotate f) = false ->
   Factored.main w f s = Exit 1 (State_ (log s ++ [MsgRotateFlag; Usage]) (fs s)))
  ∧ (rotate_ok (rotate f) = true -> flip_ok (flip f) = false ->
     Factored.main w f s = Exit 1 (State_ (log s ++ [MsgFlipFlag; Usage]) (fs s)))
  ∧ (rotate_ok (rotate f) = true -> flip_ok (flip f) = true ->
     Glob w (srcglob f) = Some [] ->
     Factored.main w f s = Exit 1 (State_ (log s ++ [MsgNoSource (srcglob f)]) (fs s)))
  ∧ (forall l, rotate_ok (rotate f) = true -> flip_ok (flip f) = true ->
       Glob w (srcglob f) = Some l -> l ≠ [] -> Create w (destname f) = true ->
       exit_status (Factored.main w f s) = 0).
Proof.
  repeat split.
  - apply Factored_bad_rotate.
  - apply Factored_bad_flip.
  - apply Factored_no_source.
  - intros l Hr Hf HG Hl HC.
    destruct (main_run w f l s Hr Hf HG Hl) as (msgs & Hm & _).
    rewrite Hm. cbv zeta. rewrite HC. reflexivity.
Qed.

(** ** The assembled animation *)

Lemma length_omap_fails w f l :
  (length (omap (frame_of w f) l) + length (List.filter (fails w f) l) = length l)%nat.
Proof.
  induction l as [|x l IH]; [ reflexivity | ].
  change (omap (frame_of w f) (x :: l))
    with (match frame_of w f x with
          | Some y => y :: omap (frame_of w f) l
          | None => omap (frame_of w f) l
          end).
  cbn [List.filter]. unfold fails at 1.
  destruct (frame_of w f x); cbn [length]; lia.
Qed.

Lemma rejected_assembled w f l :
  gif.rejected (assembled w f l)
  = match omap (frame_of w f) l with [] => true | _ :: _ => false end.
Proof.
  unfold gif.rejected, assembled. cbn [gif.Image gif.Delay].
  rewrite length_replicate, Z.eqb_refl, orb_false_r.
  destruct (omap (frame_of w f) l); reflexivity.
Qed.

(** The run up to the call of [gif.EncodeAll]. *)
Lemma main_reaches_EncodeAll w f l s :
  rotate_ok (rotate f) = true ->
  flip_ok (flip f) = true ->
  Glob w (srcglob f) = Some l ->
  l ≠ [] ->
  Create w (destname f) = true ->
  ∃ s1,
    Factored.main w f s
    = (err ← EncodeAll w (destname f) (assembled w f (sort_Strings l));
       (if err : bool then Printf MsgEncodeError else mret tt);;
       Close (destname f)) s1.
Proof.
  intros Hr Hf HG Hl HC. unfold Factored.main.
  rewrite Hr, Hf, HG. cbn [negb]. rewrite !ret_bind.
  rewrite (length_eqb_0 l Hl), ret_bind.
  erewrite bind_run by apply when_run.
  destruct (loop_spec w f (Z.of_nat (length (sort_Strings l))) (sort_Strings l) 0 []
              (State_ (log s ++ (if verbose f then [MsgFound (Z.of_nat (length l))] else []))
                      (fs s)))
    as (msgs & Hloop & _).
  cbv zeta.
  erewrite bind_run by exact Hloop.
  rewrite app_nil_l.
  erewrite bind_run by apply when_run.
  erewrite bind_run by (rewrite os_Create_run, HC; reflexivity).
  rewrite make_delays_replicate.
  eexists. reflexivity.
Qed.

(** C2. On a valid command line whose pattern matches N sources, of which
    k fail, the run sorts the sources and reaches [gif.EncodeAll] with an
    animation that holds exactly the N-k frames of the sources that did
    not fail, in the sorted order of the sources, and N-k delays all equal
    to [-delay]; the run ends with status 0, the destination holds what
    [gif.EncodeAll] wrote, and every source that failed has its line on
    standard error. *)
Theorem surviving_frames_in_order_with_uniform_delay :
  forall (w : World) (f : Flags) (l : list string) (s : State),
    rotate_ok (rotate f) = true ->
    flip_ok (flip f) = true ->
    Glob w (srcglob f) = Some l ->
    l ≠ [] ->
    Create w (destname f) = true ->
    let srcs := sort_Strings l in
    let g := assembled w f srcs in
    let k := length (List.filter (fails w f) srcs) in
    srcs ≡ₚ l
    ∧ Sorted (fun a b => String.leb a b = true) srcs
    ∧ (∃ s1,
         Factored.main w f s
         = (err ← EncodeAll w (destname f) g;
            (if err : bool then Printf MsgEncodeError else mret tt);;
            Close (destname f)) s1)
    ∧ gif.Image g = omap (frame_of w f) srcs
    ∧ length (gif.Image g) = (length l - k)%nat
    ∧ gif.Delay g = replicate (length l - k) (delay f)
    ∧ exit_status (Factored.main w f s) = 0
    ∧ fs (final_state (Factored.main w f s)) = <[destname f := written w g]> (fs s)
    ∧ (forall x, x ∈ srcs -> fails w f x = true ->
         skip_logged x (log (final_state (Factored.main w f s)))).
Proof.
  intros w f l s Hr Hf HG Hl HC srcs g k.
  assert (Hlen : length (gif.Image g) = (length l - k)%nat).
  { pose proof (length_omap_fails w f srcs) as H.
    unfold srcs in H at 3. rewrite sort_Strings_length in H.
    unfold g, assembled, k. cbn [gif.Image]. fold srcs. lia. }
  destruct (main_run w f l s Hr Hf HG Hl) as (msgs & Hm & Hskip).
  cbv zeta in Hm. rewrite HC in Hm.
  split; [ apply sort_Strings_perm | ].
  split; [ apply sort_Strings_Sorted | ].
  split; [ apply main_reaches_EncodeAll; assumption | ].
  split; [ reflexivity | ].
  split; [ exact Hlen | ].
  split; [ rewrite <- Hlen; reflexivity | ].
  rewrite Hm. cbn [exit_status final_state fs log].
  split; [ reflexivity | ].
  split; [ reflexivity | ].
  intros x Hx Hfail.
  apply skip_logged_app_r, skip_logged_app_l.
  apply Hskip; [ exact Hx | ].
  unfold fails in Hfail. destruct (frame_of w f x); [ discriminate | reflexivity ].
Qed.

Lemma surviving_frames_in_order_with_uniform_delay_witness :
  let w := Toy.world [("b.jpg"%string, Some Examples.img8); ("a.jpg"%string, None);
                      ("c.jpg"%string, Some Examples.img4)] true true in
  let srcs := sort_Strings ["b.jpg"; "a.jpg"; "c.jpg"]%string in
  let g := assembled w default_flags srcs in
  let k := length (List.filter (fails w default_flags) srcs) in
  srcs ≡ₚ ["b.jpg"; "a.jpg"; "c.jpg"]%string
  ∧ Sorted (fun a b => String.leb a b = true) srcs
  ∧ (∃ s1,
       Factored.main w default_flags start
       = (err ← EncodeAll w (destname default_flags) g;
          (if err : bool then Printf MsgEncodeError else mret tt);;
          Close (destname default_flags)) s1)
  ∧ gif.Image g = omap (frame_of w default_flags) srcs
  ∧ length (gif.Image g) = (3 - k)%nat
  ∧ gif.Delay g = replicate (3 - k) (delay default_flags)
  ∧ exit_status (Factored.main w default_flags start) = 0
  ∧ fs (final_state (Factored.main w default_flags start))
    = <[destname default_flags := written w g]> (fs start)
  ∧ (forall x, x ∈ srcs -> fails w default_flags x = true ->
       skip_logged x (log (final_state (Factored.main w default_flags start)))).
Proof.
  intros w.
  apply (surviving_frames_in_order_with_uniform_delay w default_flags
           ["b.jpg"; "a.jpg"; "c.jpg"]%string start).
  - reflexivity.
  - reflexivity.
  - reflexivity.
  - discriminate.
  - reflexivity.
Defined.

(** What the witness run produces: two frames, in the order [b], [c]. *)
Example two_of_three_sources_survive :
  let w := Toy.world [("b.jpg"%string, Some Examples.img8); ("a.jpg"%string, None);
                      ("c.jpg"%string, Some Examples.img4)] true true in
  Factored.main w default_flags start
  = Ret tt (State_ [MsgSkipRead "a.jpg"]
              {["movie.gif"%string :=
                  Stream (gif.GIF_ [Toy.frame 8 8; Toy.frame 4 4] [3; 3] 0) true]}).
Proof. vm_compute. reflexivity. Qed.

(** C1, as the claim states it, fails: when the only source cannot be
    read, the frame sequence is empty and [gif.EncodeAll] refuses it, yet
    the run ends with status 0 and the destination file exists. *)
Lemma failed_assembly_exits_zero_and_leaves_the_file :
  ¬ (forall (w : World) (f : Flags) (l : list string),
       Glob w (srcglob f) = Some l ->
       encode_fails w (assembled w f (sort_Strings l)) = true ->
       exit_status (Factored.main w f start) ≠ 0
       ∧ fs (final_state (Factored.main w f start)) !! destname f = None).
Proof.
  intros H.
  destruct (H Examples.unreadable_source default_flags ["a.jpg"%string] eq_refl eq_refl)
    as [_ Hfile].
  vm_compute in Hfile. discriminate Hfile.
Qed.

(** C1, amended. When the final assembly fails (no frame is left, or
    [gif.EncodeAll] fails while writing), the failure is only printed: the
    run ends with status 0, and the destination file, created or truncated
    before the serialization starts, stays where it is, empty when no
    frame is left and holding the part of the stream that was written
    otherwise. *)
Theorem failed_assembly_is_only_logged :
  forall (w : World) (f : Flags) (l : list string) (s : State),
    rotate_ok (rotate f) = true ->
    flip_ok (flip f) = true ->
    Glob w (srcglob f) = Some l ->
    l ≠ [] ->
    Create w (destname f) = true ->
    let g := assembled w f (sort_Strings l) in
    encode_fails w g = true ->
    exit_status (Factored.main w f s) = 0
    ∧ MsgEncodeError ∈ log (final_state (Factored.main w f s))
    ∧ fs (final_state (Factored.main w f s)) !! destname f
      = Some (match gif.Image g with
              | [] => NoData
              | _ :: _ => Stream g false
              end).
Proof.
  intros w f l s Hr Hf HG Hl HC g Hfail.
  destruct (main_run w f l s Hr Hf HG Hl) as (msgs & Hm & _).
  cbv zeta in Hm. rewrite HC in Hm. fold g in Hm. rewrite Hfail in Hm.
  rewrite Hm. cbn [exit_status final_state log fs].
  split; [ reflexivity | ].
  split.
  - rewrite !elem_of_app, list_elem_of_singleton. tauto.
  - rewrite lookup_insert_eq. f_equal.
    unfold written. unfold encode_fails in Hfail.
    unfold g in *. rewrite rejected_assembled in *.
    change (gif.Image (assembled w f (sort_Strings l)))
      with (omap (frame_of w f) (sort_Strings l)).
    destruct (omap (frame_of w f) (sort_Strings l)); [ reflexivity | ].
    cbn [orb] in Hfail. apply negb_true_iff in Hfail. by rewrite Hfail.
Qed.

Lemma failed_assembly_is_only_logged_witness :
  let g := assembled Examples.failing_write default_flags (sort_Strings ["a.jpg"%string]) in
  exit_status (Factored.main Examples.failing_write default_flags start) = 0
  ∧ MsgEncodeError ∈ log (final_state (Factored.main Examples.failing_write default_flags start))
  ∧ fs (final_state (Factored.main Examples.failing_write default_flags start))
    !! destname default_flags
    = Some (match gif.Image g with
            | [] => NoData
            | _ :: _ => Stream g false
            end).
Proof.
  apply (failed_assembly_is_only_logged Examples.failing_write default_flags
           ["a.jpg"%string] start).
  - reflexivity.
  - reflexivity.
  - reflexivity.
  - discriminate.
  - reflexivity.
  - reflexivity.
Defined.

(** ** The program with the inlined geometry *)

Lemma lo_for_range {S : Type} (body : Z -> string -> S -> M S) :
  (forall ctr x st, logs_only (body ctr x st)) ->
  forall l ctr st, logs_only (for_range body ctr l st).
Proof.
  intros Hb l. induction l as [|x l IH]; intros ctr st; cbn [for_range].
  - apply lo_ret.
  - apply lo_bind; [ apply Hb | intros st'; apply IH ].
Qed.

Lemma lo_Inlined_body w f n ctr x st : logs_only (Inlined.body w f n ctr x st).
Proof. unfold Inlined.body. lo_solve. Qed.

Lemma Inlined_bad_rotate w f s :
  rotate_ok (rotate f) = false ->
  Inlined.main w f s = Exit 1 (State_ (log s ++ [MsgRotateFlag; Usage]) (fs s)).
Proof.
  intros H. unfold Inlined.main. rewrite H. cbn [negb].
  erewrite bind_exit by reflexivity.
  cbn [log fs]. by rewrite <- app_assoc.
Qed.

Lemma Inlined_bad_flip w f s :
  rotate_ok (rotate f) = true ->
  flip_ok (flip f) = false ->
  Inlined.main w f s = Exit 1 (State_ (log s ++ [MsgFlipFlag; Usage]) (fs s)).
Proof.
  intros Hr H. unfold Inlined.main. rewrite Hr, H. cbn [negb].
  rewrite ret_bind.
  erewrite bind_exit by reflexivity.
  cbn [log fs]. by rewrite <- app_assoc.
Qed.

Lemma Inlined_glob_error w f s :
  rotate_ok (rotate f) = true ->
  flip_ok (flip f) = true ->
  Glob w (srcglob f) = None ->
  Inlined.main w f s = Exit 1 (State_ (log s ++ [MsgGlobError (srcglob f)]) (fs s)).
Proof.
  intros Hr Hf H. unfold Inlined.main. rewrite Hr, Hf, H. cbn [negb].
  rewrite !ret_bind.
  erewrite bind_exit by reflexivity.
  reflexivity.
Qed.

(** A run of the inlined program once the pattern has been expanded,
    whatever it matched. *)
Lemma Inlined_main_run w f l s :
  rotate_ok (rotate f) = true ->
  flip_ok (flip f) = true ->
  Glob w (srcglob f) = Some l ->
  ∃ msgs frames,
    Inlined.main w f s
    = (let g := gif.GIF_ frames (replicate (length frames) (delay f)) 0 in
       if Create w (destname f)
       then Ret tt (State_ (log s ++ msgs ++ (if encode_fails w g then [MsgEncodeError] else []))
                           (<[destname f := written w g]> (fs s)))
       else Exit 1 (State_ (log s ++ msgs ++ [MsgCreateError (destname f)]) (fs s))).
Proof.
  intros Hr Hf HG. unfold Inlined.main.
  rewrite Hr, Hf, HG. cbn [negb]. rewrite !ret_bind.
  erewrite bind_run by apply when_run.
  cbv zeta.
  set (loop := for_range (Inlined.body w f (Z.of_nat (length (sort_Strings l)))) 0
                 (sort_Strings l) (Inlined.Vars_ (cropwidth f) (cropheight f) [])).
  assert (Hlo : logs_only loop)
    by (apply lo_for_range; intros; apply lo_Inlined_body).
  erewrite bind_run by apply (logs_only_run loop (Inlined.Vars_ 0 0 []) _ Hlo).
  cbn [log fs].
  set (st := returned loop (Inlined.Vars_ 0 0 [])).
  pose proof (assemble_run w f (Inlined.v_frames st)) as Ha.
  cbv zeta in Ha. rewrite Ha. cbn [log fs].
  exists ((if verbose f then [MsgFound (Z.of_nat (length l))] else []) ++ logged loop
          ++ (if verbose f then [MsgParsedAll (destname f)] else [])),
         (Inlined.v_frames st).
  destruct (Create w (destname f)); rewrite <- !app_assoc; reflexivity.
Qed.

(** ** The loop count *)

Lemma only_loop_count_zero_is_written (w : World) (g0 : gif.GIF) (d : string)
    (m m' : gmap string FileData) :
  gif.LoopCount g0 = 0 ->
  m' = m ∨ m' = <[d := written w g0]> m ->
  forall name g c,
    m' !! name = Some (Stream g c) ->
    m !! name = Some (Stream g c) ∨ gif.LoopCount g = 0.
Proof.
  intros H0 [-> | ->] name g c Hl; [ by left | ].
  destruct (decide (d = name)) as [-> | Hne].
  - rewrite lookup_insert_eq in Hl. unfold written in Hl.
    destruct (gif.rejected g0); [ discriminate | ].
    injection Hl as -> _. by right.
  - rewrite lookup_insert_ne in Hl by done. by left.
Qed.

Lemma Factored_main_files w f s :
  ∃ g0, gif.LoopCount g0 = 0
        ∧ (fs (final_state (Factored.main w f s)) = fs s
           ∨ fs (final_state (Factored.main w f s)) = <[destname f := written w g0]> (fs s)).
Proof.
  exists (match Glob w (srcglob f) with
          | Some l => assembled w f (sort_Strings l)
          | None => gif.GIF_ [] [] 0
          end).
  split; [ destruct (Glob w (srcglob f)); reflexivity | ].
  destruct (rotate_ok (rotate f)) eqn:Hr;
    [ | left; by rewrite Factored_bad_rotate ].
  destruct (flip_ok (flip f)) eqn:Hf;
    [ | left; by rewrite Factored_bad_flip ].
  destruct (Glob w (srcglob f)) as [l|] eqn:HG;
    [ | left; by rewrite Factored_glob_error ].
  destruct l as [|x l]; [ left; by rewrite Factored_no_source | ].
  destruct (main_run w f (x :: l) s Hr Hf HG) as (msgs & Hm & _); [ done | ].
  rewrite Hm. cbv zeta.
  destruct (Create w (destname f)); [ right | left ]; reflexivity.
Qed.

Lemma Inlined_main_files w f s :
  ∃ g0, gif.LoopCount g0 = 0
        ∧ (fs (final_state (Inlined.main w f s)) = fs s
           ∨ fs (final_state (Inlined.main w f s)) = <[destname f := written w g0]> (fs s)).
Proof.
  destruct (rotate_ok (rotate f)) eqn:Hr;
    [ | exists (gif.GIF_ [] [] 0); split; [ done | left; by rewrite Inlined_bad_rotate ] ].
  destruct (flip_ok (flip f)) eqn:Hf;
    [ | exists (gif.GIF_ [] [] 0); split; [ done | left; by rewrite Inlined_bad_flip ] ].
  destruct (Glob w (srcglob f)) as [l|] eqn:HG;
    [ | exists (gif.GIF_ [] [] 0); split; [ done | left; by rewrite Inlined_glob_error ] ].
  destruct (Inlined_main_run w f l s Hr Hf HG) as (msgs & frames & Hm).
  exists (gif.GIF_ frames (replicate (length frames) (delay f)) 0).
  split; [ reflexivity | ].
  rewrite Hm. cbv zeta.
  destruct (Create w (destname f)); [ right | left ]; reflexivity.
Qed.

(** C10. Whatever the flags and the sources, every animation stream that
    either copy of the program writes, whole or cut short, carries the
    loop count 0: a file that holds a stream after the run either held
    that very stream before, or the stream's loop count is 0. *)
Theorem loop_count_is_always_zero :
  (forall (w : World) (f : Flags) (s : State) (name : string) (g : gif.GIF) (c : bool),
     fs (final_state (Factored.main w f s)) !! name = Some (Stream g c) ->
     fs s !! name = Some (Stream g c) ∨ gif.LoopCount g = 0)
  ∧ (forall (w : World) (f : Flags) (s : State) (name : string) (g : gif.GIF) (c : bool),
       fs (final_state (Inlined.main w f s)) !! name = Some (Stream g c) ->
       fs s !! name = Some (Stream g c) ∨ gif.LoopCount g = 0).
Proof.
  split; intros w f s name g c H.
  - destruct (Factored_main_files w f s) as (g0 & H0 & Hfs).
    exact (only_loop_count_zero_is_written w g0 (destname f) _ _ H0 Hfs name g c H).
  - destruct (Inlined_main_files w f s) as (g0 & H0 & Hfs).
    exact (only_loop_count_zero_is_written w g0 (destname f) _ _ H0 Hfs name g c H).
Qed.

Lemma loop_count_is_always_zero_witness :
  (fs start !! "movie.gif"%string
     = Some (Stream (gif.GIF_ [Toy.frame 4 4] [3] 0) true)
   ∨ gif.LoopCount (gif.GIF_ [Toy.frame 4 4] [3] 0) = 0)
  ∧ (fs start !! "movie.gif"%string
       = Some (Stream (gif.GIF_ [Toy.frame 4 4] [3] 0) true)
     ∨ gif.LoopCount (gif.GIF_ [Toy.frame 4 4] [3] 0) = 0).
Proof.
  split.
  - apply (proj1 loop_count_is_always_zero Examples.one_source default_flags start
             "movie.gif"%string (gif.GIF_ [Toy.frame 4 4] [3] 0) true).
    vm_compute. reflexivity.
  - apply (proj2 loop_count_is_always_zero Examples.one_source default_flags start
             "movie.gif"%string (gif.GIF_ [Toy.frame 4 4] [3] 0) true).
    vm_compute. reflexivity.
Defined.

(** ** Where the two copies part *)

(** C6 (the inlined copy departs from the claim). When the pattern
    matches nothing, the factored program ends with status 1 before the
    loop, but the inlined one, which lacks the test of the number of
    sources, goes on: it creates the destination, has [gif.EncodeAll]
    refuse the empty animation, prints that and ends with status 0. *)
Theorem Inlined_main_goes_on_without_sources :
  Inlined.main Examples.no_source default_flags start
  = Ret tt (State_ [MsgEncodeError] {["movie.gif"%string := NoData]})
  ∧ exit_status (Inlined.main Examples.no_source default_flags start) = 0
  ∧ Factored.main Examples.no_source default_flags start
    = Exit 1 (State_ [MsgNoSource "*.jpg"] ∅).
Proof. repeat split; vm_compute; reflexivity. Qed.

(** C8 (the inlined copy departs from the claim). With [-cropleft=1] and
    sources of 4 by 4 and 8 by 8 pixels, the first turn of the inlined
    loop replaces the sentinels of [-cropwidth] and [-cropheight] by 4, the
    size of the first image, so the second image is cropped to the 3 by 3
    pixels of the first; the helper [CropImage] of the factored program
    works on copies of the flags and crops the second image to 7 by 7. *)
Theorem Inlined_loop_overwrites_the_crop_flags :
  for_range (Inlined.body Examples.two_sources Examples.flags_cropleft1 2) 0
    ["a.jpg"; "b.jpg"]%string (Inlined.Vars_ (-1) (-1) []) start
  = Ret (Inlined.Vars_ 4 4 [Toy.frame 3 3; Toy.frame 3 3]) start
  ∧ for_range (Factored.body Examples.two_sources Examples.flags_cropleft1 2) 0
      ["a.jpg"; "b.jpg"]%string [] start
    = Ret [Toy.frame 3 3; Toy.frame 7 7] start.
Proof. split; vm_compute; reflexivity. Qed.

(** C7 (the copies are not equivalent). They differ when no source
    matches (status 1 and no file against status 0 and an empty file) and
    when a crop is asked for with a sentinel left in place and the sources
    differ in size (the animations differ). *)
Theorem the_two_copies_differ :
  Factored.main Examples.no_source default_flags start
  ≠ Inlined.main Examples.no_source default_flags start
  ∧ Factored.main Examples.two_sources Examples.flags_cropleft1 start
    ≠ Inlined.main Examples.two_sources Examples.flags_cropleft1 start.
Proof.
  split; intros H.
  - vm_compute in H. discriminate H.
  - apply (f_equal (fun r => fs (final_state r) !! "movie.gif"%string)) in H.
    vm_compute in H. discriminate H.
Qed.

(** ** Where the two copies agree *)

(** The crop flags that the inlined loop leaves as they are: no crop at
    all, or a crop whose width and height are both given. *)
Lemma Inlined_body_agrees w f n ctr x frames s :
  no_crop f = true ∨ (cropwidth f ≠ -1 ∧ cropheight f ≠ -1) ->
  Inlined.body w f n ctr x (Inlined.Vars_ (cropwidth f) (cropheight f) frames) s
  = match Factored.body w f n ctr x frames s with
    | Ret frames' s' => Ret (Inlined.Vars_ (cropwidth f) (cropheight f) frames') s'
    | Exit c s' => Exit c s'
    end.
Proof.
  intros H.
  unfold Inlined.body, Factored.body, Factored.CropImage, Factored.ScaleImage,
    Factored.RotateImage, Factored.FlipImage.
  cbn [Inlined.v_cropwidth Inlined.v_cropheight Inlined.v_frames].
  destruct (Open w x) as [img|]; [ | reflexivity ].
  assert (Hc : (negb ((cropwidth f =? -1) && (cropheight f =? -1)
                      && (cropleft f =? 0) && (croptop f =? 0)) = false)
               ∨ ((cropwidth f =? -1) = false ∧ (cropheight f =? -1) = false)).
  { destruct H as [H | [H1 H2]].
    - left. unfold no_crop in H. by rewrite H.
    - right. split; by apply Z.eqb_neq. }
  destruct Hc as [Hc | [H1 H2]].
  - rewrite Hc.
    destruct (verbose f), (negb (scale f =? 1)%float),
      (negb (rotate f =? 0)), (negb (String.eqb (flip f) "none"));
      cbv [mbind M_bind mret M_ret when Printf andb]; cbn [log fs];
      repeat case_match; simplify_eq; reflexivity.
  - rewrite H1, H2. cbn [andb negb].
    destruct (verbose f), (negb (scale f =? 1)%float),
      (negb (rotate f =? 0)), (negb (String.eqb (flip f) "none"));
      cbv [mbind M_bind mret M_ret when Printf andb]; cbn [log fs];
      repeat case_match; simplify_eq; reflexivity.
Qed.

Lemma Inlined_loop_agrees w f n l :
  no_crop f = true ∨ (cropwidth f ≠ -1 ∧ cropheight f ≠ -1) ->
  forall ctr frames s,
    for_range (Inlined.body w f n) ctr l
      (Inlined.Vars_ (cropwidth f) (cropheight f) frames) s
    = match for_range (Factored.body w f n) ctr l frames s with
      | Ret frames' s' => Ret (Inlined.Vars_ (cropwidth f) (cropheight f) frames') s'
      | Exit c s' => Exit c s'
      end.
Proof.
  intros H. induction l as [|x l IH]; intros ctr frames s; [ reflexivity | ].
  cbn [for_range].
  destruct (body_spec w f n ctr x frames s) as (msgs & Hb & _).
  erewrite (bind_run (Factored.body w f n ctr x frames)) by exact Hb.
  erewrite bind_run by (rewrite Inlined_body_agrees, Hb by exact H; reflexivity).
  apply IH.
Qed.

(** Apart from the two departures of the inlined copy (no test for an
    empty list of sources, crop flags overwritten by the loop), the two
    copies are the same program: when the pattern does not expand to the
    empty list and the crop flags are at their defaults or give both a
    width and a height, they end in the same state with the same status. *)
Lemma copies_agree w f s :
  Glob w (srcglob f) ≠ Some [] ->
  no_crop f = true ∨ (cropwidth f ≠ -1 ∧ cropheight f ≠ -1) ->
  Inlined.main w f s = Factored.main w f s.
Proof.
  intros HG H.
  destruct (rotate_ok (rotate f)) eqn:Hr;
    [ | by rewrite Inlined_bad_rotate, Factored_bad_rotate ].
  destruct (flip_ok (flip f)) eqn:Hf;
    [ | by rewrite Inlined_bad_flip, Factored_bad_flip ].
  destruct (Glob w (srcglob f)) as [l|] eqn:HGl;
    [ | by rewrite Inlined_glob_error, Factored_glob_error ].
  assert (Hl : l ≠ []) by congruence.
  destruct (loop_spec w f (Z.of_nat (length (sort_Strings l))) (sort_Strings l) 0 []
              (State_ (log s ++ (if verbose f then [MsgFound (Z.of_nat (length l))] else []))
                      (fs s)))
    as (msgs & Hloop & _).
  symmetry. unfold Factored.main.
  rewrite Hr, Hf, HGl. cbn [negb]. rewrite !ret_bind.
  rewrite (length_eqb_0 l Hl), ret_bind.
  erewrite bind_run by apply when_run.
  cbv zeta.
  erewrite bind_run by exact Hloop.
  symmetry. unfold Inlined.main.
  rewrite Hr, Hf, HGl. cbn [negb]. rewrite !ret_bind.
  erewrite bind_run by apply when_run.
  cbv zeta.
  erewrite bind_run by (rewrite Inlined_loop_agrees, Hloop by exact H; reflexivity).
  reflexivity.
Qed.

Lemma copies_agree_example :
  Inlined.main Examples.two_sources default_flags start
  = Factored.main Examples.two_sources default_flags start.
Proof.
  apply copies_agree.
  - discriminate.
  - left. reflexivity.
Defined.

(** * Further properties of the two programs *)

(** ** How a run ends *)

Lemma Factored_outcome w f s :
  exit_status (Factored.main w f s) = (if Factored_completes w f then 0 else 1)
  ∧ ∃ g, fs (final_state (Factored.main w f s))
         = if Factored_completes w f then <[destname f := written w g]> (fs s) else fs s.
Proof.
  unfold Factored_completes.
  destruct (rotate_ok (rotate f)) eqn:Hr;
    [ | rewrite Factored_bad_rotate by done; split; [ done | by exists (gif.GIF_ [] [] 0) ] ].
  destruct (flip_ok (flip f)) eqn:Hf;
    [ | rewrite Factored_bad_flip by done; split; [ done | by exists (gif.GIF_ [] [] 0) ] ].
  destruct (Glob w (srcglob f)) as [[|x l]|] eqn:HG.
  - rewrite Factored_no_source by done. split; [ done | by exists (gif.GIF_ [] [] 0) ].
  - destruct (main_run w f (x :: l) s Hr Hf HG) as (msgs & Hm & _); [ done | ].
    rewrite Hm. cbv zeta. cbn [andb].
    destruct (Create w (destname f));
      (split; [ done | exists (assembled w f (sort_Strings (x :: l))); reflexivity ]).
  - rewrite Factored_glob_error by done. split; [ done | by exists (gif.GIF_ [] [] 0) ].
Qed.

Lemma Inlined_outcome w f s :
  exit_status (Inlined.main w f s) = (if Inlined_completes w f then 0 else 1)
  ∧ ∃ g, fs (final_state (Inlined.main w f s))
         = if Inlined_completes w f then <[destname f := written w g]> (fs s) else fs s.
Proof.
  unfold Inlined_completes.
  destruct (rotate_ok (rotate f)) eqn:Hr;
    [ | rewrite Inlined_bad_rotate by done; split; [ done | by exists (gif.GIF_ [] [] 0) ] ].
  destruct (flip_ok (flip f)) eqn:Hf;
    [ | rewrite Inlined_bad_flip by done; split; [ done | by exists (gif.GIF_ [] [] 0) ] ].
  destruct (Glob w (srcglob f)) as [l|] eqn:HG.
  - destruct (Inlined_main_run w f l s Hr Hf HG) as (msgs & frames & Hm).
    rewrite Hm. cbv zeta. cbn [andb].
    destruct (Create w (destname f));
      (split; [ done
              | exists (gif.GIF_ frames (replicate (length frames) (delay f)) 0);
                reflexivity ]).
  - rewrite Inlined_glob_error by done. split; [ done | by exists (gif.GIF_ [] [] 0) ].
Qed.


(** X2. A run of either program that ends with a status other than 0 has
    created, truncated or written no file at all. *)
Theorem nonzero_exit_touches_no_file :
  forall (w : World) (f : Flags) (s : State),
    (exit_status (Factored.main w f s) ≠ 0 ->
     fs (final_state (Factored.main w f s)) = fs s)
    ∧ (exit_status (Inlined.main w f s) ≠ 0 ->
       fs (final_state (Inlined.main w f s)) = fs s).
Proof.
  intros w f s. split.
  - destruct (Factored_outcome w f s) as (He & g & Hfs). rewrite He, Hfs.
    destruct (Factored_completes w f); done.
  - destruct (Inlined_outcome w f s) as (He & g & Hfs). rewrite He, Hfs.
    destruct (Inlined_completes w f); done.
Qed.

Lemma nonzero_exit_touches_no_file_witness :
  fs (final_state (Factored.main Examples.no_source default_flags
                     (State_ [] {["movie.gif"%string := NoData]})))
  = fs (State_ [] {["movie.gif"%string := NoData]})
  ∧ fs (final_state (Inlined.main Examples.one_source
                       (Flags_ "*.jpg" "movie.gif" 0 0 (-1) (-1) 3 false 1%float 45 "none")
                       start))
    = fs start.
Proof.
  split.
  - apply (proj1 (nonzero_exit_touches_no_file Examples.no_source default_flags
                    (State_ [] {["movie.gif"%string := NoData]}))).
    vm_compute. discriminate.
  - apply (proj2 (nonzero_exit_touches_no_file Examples.one_source
                    (Flags_ "*.jpg" "movie.gif" 0 0 (-1) (-1) 3 false 1%float 45 "none")
                    start)).
    vm_compute. discriminate.
Defined.

(** X3. The only file either program ever changes is the destination:
    every other file is after the run what it was before, whatever the
    flags, the sources and the way the run ends. *)
Theorem only_the_destination_is_written :
  forall (w : World) (f : Flags) (s : State) (name : string),
    name ≠ destname f ->
    fs (final_state (Factored.main w f s)) !! name = fs s !! name
    ∧ fs (final_state (Inlined.main w f s)) !! name = fs s !! name.
Proof.
  intros w f s name Hne. split.
  - destruct (Factored_outcome w f s) as (_ & g & Hfs). rewrite Hfs.
    destruct (Factored_completes w f); [ by rewrite lookup_insert_ne | done ].
  - destruct (Inlined_outcome w f s) as (_ & g & Hfs). rewrite Hfs.
    destruct (Inlined_completes w f); [ by rewrite lookup_insert_ne | done ].
Qed.

Lemma only_the_destination_is_written_witness :
  fs (final_state (Factored.main Examples.two_sources default_flags
                     (State_ [] {["a.jpg"%string := NoData]}))) !! "a.jpg"%string
  = fs (State_ [] {["a.jpg"%string := NoData]}) !! "a.jpg"%string
  ∧ fs (final_state (Inlined.main Examples.two_sources default_flags
                       (State_ [] {["a.jpg"%string := NoData]}))) !! "a.jpg"%string
    = fs (State_ [] {["a.jpg"%string := NoData]}) !! "a.jpg"%string.
Proof.
  apply (only_the_destination_is_written Examples.two_sources default_flags
           (State_ [] {["a.jpg"%string := NoData]}) "a.jpg"%string).
  discriminate.
Defined.

(** ** What a run prints *)

Lemma logged_CropImage_quiet l t cw ch img :
  logged (Factored.CropImage l t cw ch img false) = [].
Proof.
  unfold logged, Factored.CropImage. destruct (negb _); reflexivity.
Qed.

Lemma logged_ScaleImage_quiet w sc img :
  logged (Factored.ScaleImage w sc img false) = [].
Proof.
  unfold logged, Factored.ScaleImage. destruct (negb _); reflexivity.
Qed.

Lemma logged_RotateImage_quiet r img :
  logged (Factored.RotateImage r img false) = [].
Proof.
  unfold logged, Factored.RotateImage. destruct (negb _); reflexivity.
Qed.

Lemma logged_FlipImage_quiet fl img :
  logged (Factored.FlipImage fl img false) = [].
Proof.
  unfold logged, Factored.FlipImage. destruct (negb _); reflexivity.
Qed.

(** Without [-verbose] a turn of the loop prints nothing but the line
    about the source it skips. *)
Lemma body_quiet w f n ctr filename frames s :
  verbose f = false ->
  Factored.body w f n ctr filename frames s
  = Ret (frames ++ option_list (frame_of w f filename))
        (State_ (log s ++ option_list (skip_msg w f filename)) (fs s)).
Proof.
  intros Hv. unfold Factored.body, frame_of, quantized, skip_msg. rewrite Hv.
  destruct (Open w filename) as [img|]; cbn [mbind option_bind].
  - erewrite bind_run by apply when_run.
    erewrite bind_run by apply CropImage_run.
    erewrite bind_run by apply ScaleImage_run.
    erewrite bind_run by apply RotateImage_run.
    erewrite bind_run by apply FlipImage_run.
    cbn [log fs].
    rewrite logged_CropImage_quiet, logged_ScaleImage_quiet,
      logged_RotateImage_quiet, logged_FlipImage_quiet, !app_nil_r.
    destruct (Encode w _) as [buf|] eqn:HE; [ destruct (Decode w buf) as [tmpimg|] eqn:HD | ];
      cbn [mbind option_bind option_list]; rewrite ?HD; cbn [option_list].
    + cbn. by rewrite app_nil_r.
    + rewrite skip_run. cbn [log fs]. by rewrite app_nil_r.
    + rewrite skip_run. cbn [log fs]. by rewrite app_nil_r.
  - rewrite skip_run. by rewrite app_nil_r.
Qed.

Lemma loop_quiet w f n l :
  verbose f = false ->
  forall ctr frames s,
    for_range (Factored.body w f n) ctr l frames s
    = Ret (frames ++ omap (frame_of w f) l)
          (State_ (log s ++ omap (skip_msg w f) l) (fs s)).
Proof.
  intros Hv. induction l as [|x l IH]; intros ctr frames s.
  - cbn. by rewrite !app_nil_r, state_eta.
  - cbn [for_range]. erewrite bind_run by (apply body_quiet; exact Hv).
    rewrite IH. cbn [log fs]. rewrite <- !app_assoc.
    change (omap (frame_of w f) (x :: l))
      with (match frame_of w f x with
            | Some y => y :: omap (frame_of w f) l
            | None => omap (frame_of w f) l
            end).
    change (omap (skip_msg w f) (x :: l))
      with (match skip_msg w f x with
            | Some y => y :: omap (skip_msg w f) l
            | None => omap (skip_msg w f) l
            end).
    destruct (frame_of w f x), (skip_msg w f x); reflexivity.
Qed.

Lemma skip_msg_None w f x : skip_msg w f x = None <-> fails w f x = false.
Proof.
  unfold skip_msg, fails, frame_of, quantized.
  destruct (Open w x) as [img|]; cbn [mbind option_bind]; [ | done ].
  destruct (Encode w _) as [buf|]; cbn [mbind option_bind]; [ | done ].
  destruct (Decode w buf); done.
Qed.

(** X4. Without [-verbose], a run of the factored program that reaches
    the end prints exactly one line for every source that failed, in the
    sorted order of the sources and naming the source and the step that
    failed, then the line about [gif.EncodeAll] if that failed, and
    nothing else; a source that did not fail gets no line. *)
Theorem quiet_run_prints_only_failures :
  forall (w : World) (f : Flags) (l : list string) (s : State),
    verbose f = false ->
    rotate_ok (rotate f) = true ->
    flip_ok (flip f) = true ->
    Glob w (srcglob f) = Some l ->
    l ≠ [] ->
    Create w (destname f) = true ->
    log (final_state (Factored.main w f s))
    = log s ++ omap (skip_msg w f) (sort_Strings l)
      ++ (if encode_fails w (assembled w f (sort_Strings l)) then [MsgEncodeError] else [])
    ∧ (forall x, skip_msg w f x = None <-> fails w f x = false).
Proof.
  intros w f l s Hv Hr Hf HG Hl HC.
  split; [ | intros x; apply skip_msg_None ].
  unfold Factored.main.
  rewrite Hr, Hf, HG, Hv. cbn [negb]. rewrite !ret_bind.
  rewrite (length_eqb_0 l Hl), ret_bind.
  erewrite bind_run by apply when_run.
  cbv zeta.
  erewrite bind_run by (apply loop_quiet; exact Hv).
  rewrite app_nil_l.
  pose proof (assemble_run w f (omap (frame_of w f) (sort_Strings l))) as Ha.
  cbv zeta in Ha. rewrite Hv in Ha. rewrite Ha. cbn [log fs].
  rewrite HC. cbn [final_state log]. unfold assembled.
  rewrite !app_nil_r, <- !app_assoc. reflexivity.
Qed.

Lemma quiet_run_prints_only_failures_witness :
  let w := Toy.world [("b.jpg"%string, Some Examples.img8); ("a.jpg"%string, None);
                      ("c.jpg"%string, Some Examples.img4)] true true in
  log (final_state (Factored.main w default_flags start))
  = log start ++ omap (skip_msg w default_flags) (sort_Strings ["b.jpg"; "a.jpg"; "c.jpg"]%string)
    ++ (if encode_fails w (assembled w default_flags
                             (sort_Strings ["b.jpg"; "a.jpg"; "c.jpg"]%string))
        then [MsgEncodeError] else [])
  ∧ (forall x, skip_msg w default_flags x = None <-> fails w default_flags x = false).
Proof.
  intros w.
  apply (quiet_run_prints_only_failures w default_flags
           ["b.jpg"; "a.jpg"; "c.jpg"]%string start).
  - reflexivity.
  - reflexivity.
  - reflexivity.
  - reflexivity.
  - discriminate.
  - reflexivity.
Defined.

(** X5. With no crop, scale 1.0, rotation 0 and flip "none" (the defaults
    of the flags) the four helpers change nothing: the frame of a source
    is the decoded source itself after the round trip through
    [gif.Encode] and [gif.Decode]. *)
Theorem default_geometry_leaves_the_source :
  forall (w : World) (f : Flags) (filename : string),
    no_crop f = true ->
    (scale f =? 1)%float = true ->
    rotate f = 0 ->
    flip f = "none"%string ->
    frame_of w f filename = (img ← Open w filename; quantized w img).
Proof.
  intros w f filename Hc Hs Hr Hf. unfold frame_of.
  destruct (Open w filename) as [img|]; [ | reflexivity ].
  cbn [mbind option_bind]. f_equal.
  rewrite cropped_eq. unfold no_crop in Hc. rewrite Hc.
  unfold scaled, returned, Factored.ScaleImage. rewrite Hs.
  rewrite Hr, Hf. reflexivity.
Qed.

Lemma default_geometry_leaves_the_source_witness :
  frame_of Examples.one_source default_flags "a.jpg"
  = (img ← Open Examples.one_source "a.jpg"%string; quantized Examples.one_source img).
Proof.
  apply (default_geometry_leaves_the_source Examples.one_source default_flags "a.jpg"%string);
    reflexivity.
Defined.

(** X6. The inlined program on a pattern that matches nothing, in
    general: with valid flags and a destination that can be created it
    creates (or truncates) the destination, prints that the encoding
    failed and returns, so that the process ends with status 0 and an
    empty file. *)
Theorem Inlined_main_without_sources :
  forall (w : World) (f : Flags) (s : State),
    rotate_ok (rotate f) = true ->
    flip_ok (flip f) = true ->
    Glob w (srcglob f) = Some [] ->
    Create w (destname f) = true ->
    Inlined.main w f s
    = Ret tt (State_ (log s ++ (if verbose f
                                then [MsgFound 0; MsgParsedAll (destname f)]
                                else []) ++ [MsgEncodeError])
                     (<[destname f := NoData]> (fs s))).
Proof.
  intros w f s Hr Hf HG HC. unfold Inlined.main.
  rewrite Hr, Hf, HG. cbn [negb]. rewrite !ret_bind.
  erewrite bind_run by apply when_run.
  cbv zeta. cbn [sort_Strings foldr for_range]. rewrite ret_bind.
  cbn [Inlined.v_frames].
  pose proof (assemble_run w f []) as Ha.
  cbv zeta in Ha. rewrite Ha. cbn [log fs length Z.of_nat]. rewrite HC.
  clear Ha. destruct (verbose f); rewrite <- ?app_assoc, ?app_nil_r; reflexivity.
Qed.

Lemma Inlined_main_without_sources_witness :
  Inlined.main Examples.no_source default_flags start
  = Ret tt (State_ (log start ++ (if verbose default_flags
                                  then [MsgFound 0; MsgParsedAll (destname default_flags)]
                                  else []) ++ [MsgEncodeError])
                   (<[destname default_flags := NoData]> (fs start))).
Proof.
  apply (Inlined_main_without_sources Examples.no_source default_flags start); reflexivity.
Defined.

(** ** The loop of the inlined program, turn by turn *)

Lemma returns_lo {A} (m : M A) : logs_only m -> returns (fun _ => True) m.
Proof. intros (a & msgs & H) s. exists a, msgs. by rewrite H. Qed.

Lemma returns_ret {A} (P : A -> Prop) (a : A) : P a -> returns P (mret a).
Proof.
  intros H s. exists a, []. split; [ | exact H ].
  by rewrite app_nil_r, state_eta.
Qed.

Lemma returns_bind {A B} (Q : A -> Prop) (P : B -> Prop) (m : M A) (k : A -> M B) :
  returns Q m -> (forall a, Q a -> returns P (k a)) -> returns P (m ≫= k).
Proof.
  intros Hm Hk s. destruct (Hm s) as (a & msgs & Ha & HQ).
  destruct (Hk a HQ (State_ (log s ++ msgs) (fs s))) as (b & msgs' & Hb & HP).
  exists b, (msgs ++ msgs'). split; [ | exact HP ].
  rewrite (bind_run _ _ _ _ _ Ha), Hb. cbn [log fs]. by rewrite app_assoc.
Qed.

Lemma returns_weaken {A} (P Q : A -> Prop) (m : M A) :
  (forall a, P a -> Q a) -> returns P m -> returns Q m.
Proof.
  intros H Hm s. destruct (Hm s) as (a & msgs & Ha & HP). eauto 6.
Qed.

Ltac prints := apply (returns_bind (fun _ => True)); [ apply returns_lo; lo_solve | intros _ _ ].

Lemma rotated_eq r img :
  rotated r img = if r =? 90 then imaging.Rotate90 img
                  else if r =? 180 then imaging.Rotate180 img
                  else if r =? 270 then imaging.Rotate270 img
                  else img.
Proof. unfold rotated, returned, Factored.RotateImage. by destruct (negb _). Qed.

Lemma flipped_eq fl img :
  flipped fl img = if String.eqb fl "horizontal" then imaging.FlipH img
                   else if String.eqb fl "vertical" then imaging.FlipV img
                   else img.
Proof. unfold flipped, returned, Factored.FlipImage. by destruct (negb _). Qed.

Lemma scaled_eq w sc img :
  scaled w sc img
  = if (sc =? 1)%float then img
    else imaging.Resize img
           (GoInt.of_float64 (GoInt.to_float64 (image.Dx (image.Bounds img)) * sc)%float)
           (GoInt.of_float64 (GoInt.to_float64 (image.Dy (image.Bounds img)) * sc)%float)
           (Lanczos w).
Proof. unfold scaled, returned, Factored.ScaleImage. by destruct (sc =? 1)%float. Qed.

(** One turn of the inlined loop returns, whatever it prints, the
    variables [Inlined_turn] describes. *)
Lemma Inlined_body_spec w f n ctr x st :
  returns (fun st' => st' = Inlined_turn w f x st) (Inlined.body w f n ctr x st).
Proof.
  unfold Inlined.body, Inlined_turn, frame_of.
  destruct (Open w x) as [img|].
  - cbv zeta. cbn [mbind option_bind with_crop_size cropleft croptop cropwidth cropheight
                   scale rotate flip].
    prints.
    apply (returns_bind
             (fun p : Z * Z * image.Image =>
                p = (if negb ((Inlined.v_cropwidth st =? -1)
                              && (Inlined.v_cropheight st =? -1)
                              && (cropleft f =? 0) && (croptop f =? 0))
                        && (Inlined.v_cropwidth st =? -1)
                     then image.Dx (image.Bounds img) else Inlined.v_cropwidth st,
                     if negb ((Inlined.v_cropwidth st =? -1)
                              && (Inlined.v_cropheight st =? -1)
                              && (cropleft f =? 0) && (croptop f =? 0))
                        && (Inlined.v_cropheight st =? -1)
                     then image.Dy (image.Bounds img) else Inlined.v_cropheight st,
                     cropped (cropleft f) (croptop f) (Inlined.v_cropwidth st)
                       (Inlined.v_cropheight st) img))).
    + rewrite cropped_eq. unfold crop_rect.
      destruct ((Inlined.v_cropwidth st =? -1) && (Inlined.v_cropheight st =? -1)
                && (cropleft f =? 0) && (croptop f =? 0)); cbn [negb andb].
      * by apply returns_ret.
      * prints. by apply returns_ret.
    + intros [[cw ch] img1] [= -> -> ->].
      apply (returns_bind
               (fun img2 => img2 = scaled w (scale f)
                                     (cropped (cropleft f) (croptop f) (Inlined.v_cropwidth st)
                                        (Inlined.v_cropheight st) img))).
      * rewrite scaled_eq. destruct (scale f =? 1)%float; cbn [negb].
        -- by apply returns_ret.
        -- prints. by apply returns_ret.
      * intros img2 ->. prints. prints.
        rewrite <- rotated_eq, <- flipped_eq. unfold quantized.
        destruct (Encode w _) as [buf|]; cbn [mbind option_bind];
          [ destruct (Decode w buf) as [tmpimg|] | ]; cbn [option_list].
        -- by apply returns_ret.
        -- prints. apply returns_ret. by rewrite app_nil_r.
        -- prints. apply returns_ret. by rewrite app_nil_r.
  - prints. by apply returns_ret.
Qed.

(** The whole loop of the inlined program. *)
Lemma Inlined_loop_spec w f n l :
  forall ctr st,
    returns (fun st' => st' = Inlined_turns w f l st)
            (for_range (Inlined.body w f n) ctr l st).
Proof.
  induction l as [|x l IH]; intros ctr st.
  - by apply returns_ret.
  - cbn [for_range]. eapply returns_bind; [ apply Inlined_body_spec | ].
    intros st' ->. apply IH.
Qed.

Lemma Inlined_turn_inv w f x st :
  (Inlined.v_cropwidth (Inlined_turn w f x st) = Inlined.v_cropwidth st
   ∨ Inlined.v_cropwidth st = -1)
  ∧ (Inlined.v_cropheight (Inlined_turn w f x st) = Inlined.v_cropheight st
     ∨ Inlined.v_cropheight st = -1)
  ∧ ∃ extra, Inlined.v_frames (Inlined_turn w f x st) = Inlined.v_frames st ++ extra
             ∧ (length extra <= 1)%nat.
Proof.
  unfold Inlined_turn. destruct (Open w x) as [img|].
  - cbv zeta. cbn [Inlined.v_cropwidth Inlined.v_cropheight Inlined.v_frames].
    split; [ | split ].
    + destruct (Z.eqb_spec (Inlined.v_cropwidth st) (-1)); [ by right | ].
      rewrite andb_false_r. by left.
    + destruct (Z.eqb_spec (Inlined.v_cropheight st) (-1)); [ by right | ].
      rewrite andb_false_r. by left.
    + eexists. split; [ reflexivity | ].
      destruct (frame_of _ _ _); cbn; lia.
  - split; [ by left | split; [ by left | ] ].
    exists []. split; [ by rewrite app_nil_r | cbn; lia ].
Qed.

Lemma Inlined_turns_inv w f l :
  forall st,
    (Inlined.v_cropwidth (Inlined_turns w f l st) = Inlined.v_cropwidth st
     ∨ Inlined.v_cropwidth st = -1)
    ∧ (Inlined.v_cropheight (Inlined_turns w f l st) = Inlined.v_cropheight st
       ∨ Inlined.v_cropheight st = -1)
    ∧ ∃ extra, Inlined.v_frames (Inlined_turns w f l st) = Inlined.v_frames st ++ extra
               ∧ (length extra <= length l)%nat.
Proof.
  induction l as [|x l IH]; intros st.
  - cbn. split; [ by left | split; [ by left | ] ].
    exists []. split; [ by rewrite app_nil_r | cbn; lia ].
  - change (Inlined_turns w f (x :: l) st)
      with (Inlined_turns w f l (Inlined_turn w f x st)).
    destruct (IH (Inlined_turn w f x st)) as (Hw & Hh & e2 & He2 & Hl2).
    destruct (Inlined_turn_inv w f x st) as (Hw1 & Hh1 & e1 & He1 & Hl1).
    split; [ lia | split; [ lia | ] ].
    exists (e1 ++ e2). split.
    + by rewrite He2, He1, app_assoc.
    + rewrite length_app. cbn [length]. lia.
Qed.

(** X7. The loop of the inlined program never exits and never touches a
    file; a crop width or height the user gave (anything but -1) is still
    in its flag when the loop ends; the frames the loop started with stay
    in front, and at most one frame per source is added. *)
Theorem Inlined_loop_keeps_given_sizes w f n l ctr st :
  returns
    (fun st' =>
       (Inlined.v_cropwidth st' = Inlined.v_cropwidth st ∨ Inlined.v_cropwidth st = -1)
       ∧ (Inlined.v_cropheight st' = Inlined.v_cropheight st ∨ Inlined.v_cropheight st = -1)
       ∧ ∃ extra, Inlined.v_frames st' = Inlined.v_frames st ++ extra
                  ∧ (length extra <= length l)%nat)
    (for_range (Inlined.body w f n) ctr l st).
Proof.
  eapply returns_weaken; [ | apply Inlined_loop_spec ].
  intros st' ->. apply Inlined_turns_inv.
Qed.

Lemma Inlined_turn_given w f x cw ch frames :
  cw ≠ -1 -> ch ≠ -1 ->
  Inlined_turn w f x (Inlined.Vars_ cw ch frames)
  = Inlined.Vars_ cw ch (frames ++ option_list (frame_of w (with_crop_size cw ch f) x)).
Proof.
  intros Hw Hh. unfold Inlined_turn.
  cbn [Inlined.v_cropwidth Inlined.v_cropheight Inlined.v_frames].
  destruct (Open w x) as [img|] eqn:HO.
  - cbv zeta. apply Z.eqb_neq in Hw, Hh. by rewrite Hw, Hh, !andb_false_r.
  - unfold frame_of. rewrite HO. cbn. by rewrite app_nil_r.
Qed.

Lemma Inlined_turns_given w f l :
  forall cw ch frames,
    cw ≠ -1 -> ch ≠ -1 ->
    Inlined_turns w f l (Inlined.Vars_ cw ch frames)
    = Inlined.Vars_ cw ch (frames ++ omap (frame_of w (with_crop_size cw ch f)) l).
Proof.
  induction l as [|x l IH]; intros cw ch frames Hw Hh.
  - cbn. by rewrite app_nil_r.
  - change (Inlined_turns w f (x :: l) (Inlined.Vars_ cw ch frames))
      with (Inlined_turns w f l (Inlined_turn w f x (Inlined.Vars_ cw ch frames))).
    rewrite Inlined_turn_given, IH by assumption.
    rewrite <- app_assoc. do 2 f_equal.
    change (omap (frame_of w (with_crop_size cw ch f)) (x :: l))
      with (match frame_of w (with_crop_size cw ch f) x with
            | Some y => y :: omap (frame_of w (with_crop_size cw ch f)) l
            | None => omap (frame_of w (with_crop_size cw ch f)) l
            end).
    destruct (frame_of _ _ x); reflexivity.
Qed.

(** The first turn with a readable source and a crop asked for: the
    sentinels are resolved against that source, which is cropped as the
    factored helper would crop it. *)
Lemma Inlined_turn_first w f x img frames :
  Open w x = Some img ->
  no_crop f = false ->
  resolved_width f img ≠ -1 -> resolved_height f img ≠ -1 ->
  Inlined_turn w f x (Inlined.Vars_ (cropwidth f) (cropheight f) frames)
  = Inlined.Vars_ (resolved_width f img) (resolved_height f img)
      (frames ++ option_list
         (frame_of w (with_crop_size (resolved_width f img) (resolved_height f img) f) x)).
Proof.
  intros HO Hc Hw Hh. unfold Inlined_turn, frame_of. rewrite HO.
  cbv zeta. cbn [Inlined.v_cropwidth Inlined.v_cropheight Inlined.v_frames mbind option_bind
                 with_crop_size cropleft croptop cropwidth cropheight scale rotate flip].
  unfold no_crop in Hc. rewrite Hc. cbn [negb andb].
  fold (resolved_width f img) (resolved_height f img).
  do 4 f_equal.
  rewrite !cropped_eq, Hc. unfold crop_rect.
  fold (resolved_width f img) (resolved_height f img).
  apply Z.eqb_neq in Hw, Hh. rewrite Hw, Hh. reflexivity.
Qed.

(** X8. What the inlined loop computes when a crop is asked for and the
    first source can be read: the flags [-cropwidth] and [-cropheight]
    end up holding the sizes resolved against that first image, and every
    frame, of the first source and of all later ones, is the frame the
    factored helpers give for those fixed sizes, whatever the extent of
    the later images. *)
Theorem Inlined_loop_resolves_against_the_first_source w f n ctr x l img frames :
  Open w x = Some img ->
  no_crop f = false ->
  resolved_width f img ≠ -1 -> resolved_height f img ≠ -1 ->
  returns
    (fun st' =>
       st' = Inlined.Vars_ (resolved_width f img) (resolved_height f img)
               (frames
                ++ omap (frame_of w (with_crop_size (resolved_width f img)
                                       (resolved_height f img) f)) (x :: l)))
    (for_range (Inlined.body w f n) ctr (x :: l)
       (Inlined.Vars_ (cropwidth f) (cropheight f) frames)).
Proof.
  intros HO Hc Hw Hh.
  eapply returns_weaken; [ | apply Inlined_loop_spec ].
  intros st' ->.
  change (Inlined_turns w f (x :: l) (Inlined.Vars_ (cropwidth f) (cropheight f) frames))
    with (Inlined_turns w f l
            (Inlined_turn w f x (Inlined.Vars_ (cropwidth f) (cropheight f) frames))).
  rewrite (Inlined_turn_first w f x img) by assumption.
  rewrite Inlined_turns_given by assumption.
  rewrite <- app_assoc. do 2 f_equal.
  set (f' := with_crop_size _ _ f).
  change (omap (frame_of w f') (x :: l))
    with (match frame_of w f' x with
          | Some y => y :: omap (frame_of w f') l
          | None => omap (frame_of w f') l
          end).
  destruct (frame_of w f' x); reflexivity.
Qed.

Lemma Inlined_loop_resolves_against_the_first_source_witness :
  returns
    (fun st' =>
       st' = Inlined.Vars_ 4 4
               ([] ++ omap (frame_of Examples.two_sources
                              (with_crop_size 4 4 Examples.flags_cropleft1))
                        ["a.jpg"; "b.jpg"]))
    (for_range (Inlined.body Examples.two_sources Examples.flags_cropleft1 2) 0
       ["a.jpg"; "b.jpg"] (Inlined.Vars_ (-1) (-1) [])).
Proof.
  apply (Inlined_loop_resolves_against_the_first_source
           Examples.two_sources Examples.flags_cropleft1 2 0 "a.jpg" ["b.jpg"]
           Examples.img4 []).
  - reflexivity.
  - reflexivity.
  - vm_compute. discriminate.
  - vm_compute. discriminate.
Defined.

(** ** The order of the sources *)

Lemma string_compare_Lt_trans (s1 : string) :
  forall s2 s3 : string,
    String.compare s1 s2 = Lt -> String.compare s2 s3 = Lt -> String.compare s1 s3 = Lt.
Proof.
  induction s1 as [|a s1 IH]; intros [|b s2] [|c s3]; cbn; try done.
  unfold Ascii.compare.
  destruct (N.compare_spec (Ascii.N_of_ascii a) (Ascii.N_of_ascii b)) as [Hab|Hab|Hab],
           (N.compare_spec (Ascii.N_of_ascii b) (Ascii.N_of_ascii c)) as [Hbc|Hbc|Hbc],
           (N.compare_spec (Ascii.N_of_ascii a) (Ascii.N_of_ascii c)) as [Hac|Hac|Hac];
    try done; try lia; eauto.
Qed.

Lemma string_leb_trans (s1 s2 s3 : string) :
  String.leb s1 s2 = true -> String.leb s2 s3 = true -> String.leb s1 s3 = true.
Proof.
  unfold String.leb.
  destruct (String.compare s1 s2) eqn:H12; [ | | done ];
    destruct (String.compare s2 s3) eqn:H23; try done; intros _ _.
  - apply String.compare_eq_iff in H12 as ->. by rewrite H23.
  - apply String.compare_eq_iff in H12 as ->. by rewrite H23.
  - apply String.compare_eq_iff in H23 as <-. by rewrite H12.
  - by rewrite (string_compare_Lt_trans s1 s2 s3).
Qed.

(** [sort.Strings] gives one result for all the orders in which the same
    names can be listed. *)
Lemma sort_Strings_unique (l1 l2 : list string) :
  l1 ≡ₚ l2 -> sort_Strings l1 = sort_Strings l2.
Proof.
  intros HP.
  apply (@Sorted_unique _ (fun a b : string => String.leb a b = true)).
  - intros a b c. apply string_leb_trans.
  - intros a b. apply String.leb_antisym.
  - apply sort_Strings_Sorted.
  - apply sort_Strings_Sorted.
  - by rewrite !sort_Strings_perm.
Qed.

(** X9. Neither program depends on the order in which [filepath.Glob]
    lists the files it matched: the sources are sorted before the loop,
    so two listings of the same names give the same run - the same lines
    printed, the same status, the same files. *)
Theorem glob_order_is_irrelevant w f (l1 l2 : list string) s :
  l1 ≡ₚ l2 ->
  Factored.main (with_Glob (fun _ => Some l1) w) f s
  = Factored.main (with_Glob (fun _ => Some l2) w) f s
  ∧ Inlined.main (with_Glob (fun _ => Some l1) w) f s
    = Inlined.main (with_Glob (fun _ => Some l2) w) f s.
Proof.
  intros HP.
  pose proof (sort_Strings_unique l1 l2 HP) as Hs.
  pose proof (Permutation_length HP) as Hl.
  destruct (rotate_ok (rotate f)) eqn:Hr;
    [ | by rewrite !Factored_bad_rotate, !Inlined_bad_rotate ].
  destruct (flip_ok (flip f)) eqn:Hf;
    [ | by rewrite !Factored_bad_flip, !Inlined_bad_flip ].
  unfold Factored.main, Inlined.main.
  rewrite Hr, Hf. cbn [negb Glob with_Glob]. rewrite !ret_bind.
  rewrite Hs, Hl. split; reflexivity.
Qed.

Lemma glob_order_is_irrelevant_witness :
  Factored.main (with_Glob (fun _ => Some ["b.jpg"; "a.jpg"]) Examples.two_sources)
    default_flags start
  = Factored.main (with_Glob (fun _ => Some ["a.jpg"; "b.jpg"]) Examples.two_sources)
      default_flags start
  ∧ Inlined.main (with_Glob (fun _ => Some ["b.jpg"; "a.jpg"]) Examples.two_sources)
      default_flags start
    = Inlined.main (with_Glob (fun _ => Some ["a.jpg"; "b.jpg"]) Examples.two_sources)
        default_flags start.
Proof.
  apply (glob_order_is_irrelevant Examples.two_sources default_flags
           ["b.jpg"; "a.jpg"] ["a.jpg"; "b.jpg"] start).
  apply perm_swap.
Defined.

(** ** [-verbose] *)

(** A run of the inlined program once the pattern has been expanded. *)
Lemma Inlined_main_spec w f l s :
  rotate_ok (rotate f) = true ->
  flip_ok (flip f) = true ->
  Glob w (srcglob f) = Some l ->
  ∃ msgs,
    Inlined.main w f s
    = (let g := Inlined_assembled w f (sort_Strings l) in
       if Create w (destname f)
       then Ret tt (State_ (log s ++ msgs ++ (if encode_fails w g then [MsgEncodeError] else []))
                           (<[destname f := written w g]> (fs s)))
       else Exit 1 (State_ (log s ++ msgs ++ [MsgCreateError (destname f)]) (fs s))).
Proof.
  intros Hr Hf HG. unfold Inlined.main.
  rewrite Hr, Hf, HG. cbn [negb]. rewrite !ret_bind.
  erewrite bind_run by apply when_run.
  cbv zeta.
  destruct (Inlined_loop_spec w f (Z.of_nat (length (sort_Strings l))) (sort_Strings l) 0
              (Inlined.Vars_ (cropwidth f) (cropheight f) [])
              (State_ (log s ++ (if verbose f then [MsgFound (Z.of_nat (length l))] else []))
                      (fs s)))
    as (st & msgs & Hloop & ->).
  erewrite bind_run by exact Hloop.
  cbn [log fs].
  pose proof (assemble_run w f
                (Inlined.v_frames
                   (Inlined_turns w f (sort_Strings l)
                      (Inlined.Vars_ (cropwidth f) (cropheight f) [])))) as Ha.
  cbv zeta in Ha. rewrite Ha. cbn [log fs]. clear Ha Hloop.
  unfold Inlined_assembled. cbv zeta.
  exists ((if verbose f then [MsgFound (Z.of_nat (length l))] else []) ++ msgs
          ++ (if verbose f then [MsgParsedAll (destname f)] else [])).
  destruct (Create w (destname f)); rewrite <- !app_assoc; reflexivity.
Qed.

Lemma frame_of_with_verbose w b f x : frame_of w (with_verbose b f) x = frame_of w f x.
Proof. reflexivity. Qed.

Lemma assembled_with_verbose w b f l : assembled w (with_verbose b f) l = assembled w f l.
Proof. reflexivity. Qed.

Lemma Inlined_turns_with_verbose w b f l :
  forall st, Inlined_turns w (with_verbose b f) l st = Inlined_turns w f l st.
Proof.
  induction l as [|x l IH]; intros st; [ reflexivity | ].
  change (Inlined_turns w (with_verbose b f) l (Inlined_turn w (with_verbose b f) x st)
          = Inlined_turns w f l (Inlined_turn w f x st)).
  rewrite IH. reflexivity.
Qed.

Lemma Inlined_assembled_with_verbose w b f l :
  Inlined_assembled w (with_verbose b f) l = Inlined_assembled w f l.
Proof.
  unfold Inlined_assembled. cbn [cropwidth cropheight delay with_verbose].
  by rewrite Inlined_turns_with_verbose.
Qed.

(** X10. [-verbose] changes nothing but what is printed: with the flag
    set either way, a run of either program ends with the same status and
    leaves the same files. *)
Theorem verbose_changes_only_the_log w f b s :
  (exit_status (Factored.main w (with_verbose b f) s) = exit_status (Factored.main w f s)
   ∧ fs (final_state (Factored.main w (with_verbose b f) s))
     = fs (final_state (Factored.main w f s)))
  ∧ (exit_status (Inlined.main w (with_verbose b f) s) = exit_status (Inlined.main w f s)
     ∧ fs (final_state (Inlined.main w (with_verbose b f) s))
       = fs (final_state (Inlined.main w f s))).
Proof.
  split.
  - destruct (rotate_ok (rotate f)) eqn:Hr;
      [ | by rewrite !Factored_bad_rotate ].
    destruct (flip_ok (flip f)) eqn:Hf;
      [ | by rewrite !Factored_bad_flip ].
    destruct (Glob w (srcglob f)) as [[|x l]|] eqn:HG.
    + by rewrite !Factored_no_source.
    + destruct (main_run w f (x :: l) s Hr Hf HG) as (msgs & Hm & _); [ done | ].
      destruct (main_run w (with_verbose b f) (x :: l) s Hr Hf HG) as (msgs' & Hm' & _);
        [ done | ].
      rewrite Hm, Hm'. cbv zeta. rewrite assembled_with_verbose.
      cbn [destname with_verbose].
      by destruct (Create w (destname f)).
    + by rewrite !Factored_glob_error.
  - destruct (rotate_ok (rotate f)) eqn:Hr;
      [ | by rewrite !Inlined_bad_rotate ].
    destruct (flip_ok (flip f)) eqn:Hf;
      [ | by rewrite !Inlined_bad_flip ].
    destruct (Glob w (srcglob f)) as [l|] eqn:HG.
    + destruct (Inlined_main_spec w f l s Hr Hf HG) as (msgs & Hm).
      destruct (Inlined_main_spec w (with_verbose b f) l s Hr Hf HG) as (msgs' & Hm').
      rewrite Hm, Hm'. cbv zeta. rewrite Inlined_assembled_with_verbose.
      cbn [destname with_verbose].
      by destruct (Create w (destname f)).
    + by rewrite !Inlined_glob_error.
Qed.

(** ** The images the helpers return *)

Lemma Dx_Rect (W H : Z) :
  0 <= W < 2 ^ 62 -> 0 <= H < 2 ^ 62 -> image.Dx (image.Rect 0 0 W H) = W.
Proof.
  intros HW HH. rewrite Rect_ordered by lia.
  unfold image.Dx, GoInt.sub. cbn. rewrite wrap_small; lia.
Qed.

Lemma Dy_Rect (W H : Z) :
  0 <= W < 2 ^ 62 -> 0 <= H < 2 ^ 62 -> image.Dy (image.Rect 0 0 W H) = H.
Proof.
  intros HW HH. rewrite Rect_ordered by lia.
  unfold image.Dy, GoInt.sub. cbn. rewrite wrap_small; lia.
Qed.

Lemma In_Rect (W H x y : Z) :
  0 <= W -> 0 <= H ->
  (image.In x y (image.Rect 0 0 W H) = true ∧ 0 <= x < W ∧ 0 <= y < H)
  ∨ (image.In x y (image.Rect 0 0 W H) = false ∧ ¬ (0 <= x < W ∧ 0 <= y < H)).
Proof.
  intros HW HH. rewrite Rect_ordered by lia. unfold image.In.
  cbn [image.X image.Y image.Min image.Max].
  destruct (Z.leb_spec 0 x), (Z.ltb_spec x W), (Z.leb_spec 0 y), (Z.ltb_spec y H);
    cbn [andb]; first [ left; split; [ reflexivity | lia ] | right; split; [ reflexivity | lia ] ].
Qed.

Lemma canvas_well_formed (W H : Z) pix :
  0 <= W < 2 ^ 62 -> 0 <= H < 2 ^ 62 -> well_formed (imaging.canvas W H pix) W H.
Proof.
  intros HW HH. split; [ reflexivity | ]. split; [ exact HW | ]. split; [ exact HH | ].
  intros x y Hout. cbn. by rewrite Hout.
Qed.

(** Inside the bounds a canvas shows its pixel function. *)
Lemma canvas_At (W H : Z) pix x y :
  0 <= x < W -> 0 <= y < H -> image.At (imaging.canvas W H pix) x y = pix x y.
Proof.
  intros Hx Hy. cbn.
  destruct (In_Rect W H x y) as [[-> _]|[_ Hn]]; [ lia | lia | reflexivity | lia ].
Qed.

Lemma canvas_same_pixels (W H : Z) pix img :
  well_formed img W H ->
  (forall x y, 0 <= x < W -> 0 <= y < H -> pix x y = image.At img x y) ->
  same_pixels (imaging.canvas W H pix) img.
Proof.
  intros (HB & HW & HH & Hout) Hpix. split; [ by rewrite HB | ].
  intros x y. cbn.
  destruct (In_Rect W H x y) as [[-> [Hx Hy]]|[Hf _]]; [ lia | lia | by apply Hpix | ].
  rewrite Hf. symmetry. by apply Hout.
Qed.

Lemma Rotate90_eq img W H :
  well_formed img W H ->
  imaging.Rotate90 img = imaging.canvas H W (fun x y => image.At img (W - 1 - y) x).
Proof.
  intros (HB & HW & HH & _). unfold imaging.Rotate90.
  by rewrite HB, Dx_Rect, Dy_Rect.
Qed.

Lemma Rotate180_eq img W H :
  well_formed img W H ->
  imaging.Rotate180 img
  = imaging.canvas W H (fun x y => image.At img (W - 1 - x) (H - 1 - y)).
Proof.
  intros (HB & HW & HH & _). unfold imaging.Rotate180.
  by rewrite HB, Dx_Rect, Dy_Rect.
Qed.

Lemma Rotate270_eq img W H :
  well_formed img W H ->
  imaging.Rotate270 img = imaging.canvas H W (fun x y => image.At img y (H - 1 - x)).
Proof.
  intros (HB & HW & HH & _). unfold imaging.Rotate270.
  by rewrite HB, Dx_Rect, Dy_Rect.
Qed.

Lemma FlipH_eq img W H :
  well_formed img W H ->
  imaging.FlipH img = imaging.canvas W H (fun x y => image.At img (W - 1 - x) y).
Proof.
  intros (HB & HW & HH & _). unfold imaging.FlipH.
  by rewrite HB, Dx_Rect, Dy_Rect.
Qed.

Lemma FlipV_eq img W H :
  well_formed img W H ->
  imaging.FlipV img = imaging.canvas W H (fun x y => image.At img x (H - 1 - y)).
Proof.
  intros (HB & HW & HH & _). unfold imaging.FlipV.
  by rewrite HB, Dx_Rect, Dy_Rect.
Qed.

(** X11. [RotateImage] by 90 or 270 degrees swaps the width and the
    height of an image, every other angle keeps them, and so does
    [FlipImage] in every direction; the result is again anchored at the
    origin with the zero colour outside its bounds. *)
Theorem quarter_turns_swap_width_and_height img W H r fl :
  well_formed img W H ->
  well_formed (rotated r img)
    (if (r =? 90) || (r =? 270) then H else W)
    (if (r =? 90) || (r =? 270) then W else H)
  ∧ well_formed (flipped fl img) W H.
Proof.
  intros Hwf. pose proof Hwf as (HB & HW & HH & Hout). split.
  - rewrite rotated_eq.
    destruct (Z.eqb_spec r 90) as [->|]; cbn [orb].
    { rewrite (Rotate90_eq img W H) by done. by apply canvas_well_formed. }
    destruct (Z.eqb_spec r 180) as [->|]; cbn [Z.eqb Pos.eqb].
    { rewrite (Rotate180_eq img W H) by done. by apply canvas_well_formed. }
    destruct (Z.eqb_spec r 270) as [->|].
    { rewrite (Rotate270_eq img W H) by done. by apply canvas_well_formed. }
    done.
  - rewrite flipped_eq.
    destruct (String.eqb fl "horizontal").
    { rewrite (FlipH_eq img W H) by done. by apply canvas_well_formed. }
    destruct (String.eqb fl "vertical").
    { rewrite (FlipV_eq img W H) by done. by apply canvas_well_formed. }
    done.
Qed.

Lemma solid_well_formed (W H c : Z) :
  0 <= W < 2 ^ 62 -> 0 <= H < 2 ^ 62 -> well_formed (Toy.solid W H c) W H.
Proof. apply canvas_well_formed. Qed.

Lemma quarter_turns_swap_width_and_height_witness :
  well_formed (rotated 90 (Toy.solid 4 2 1)) 2 4
  ∧ well_formed (flipped "vertical" (Toy.solid 4 2 1)) 4 2.
Proof.
  apply (quarter_turns_swap_width_and_height (Toy.solid 4 2 1) 4 2 90 "vertical").
  apply solid_well_formed; lia.
Defined.

(** X12. The rotations and flips undo each other pixel by pixel: a
    quarter turn followed by three quarter turns (in either order), two
    half turns, and a flip repeated, give back the image; flipping in both
    directions is the half turn. *)
Theorem rotations_and_flips_undo img W H :
  well_formed img W H ->
  same_pixels (rotated 270 (rotated 90 img)) img
  ∧ same_pixels (rotated 90 (rotated 270 img)) img
  ∧ same_pixels (rotated 180 (rotated 180 img)) img
  ∧ same_pixels (flipped "horizontal" (flipped "horizontal" img)) img
  ∧ same_pixels (flipped "vertical" (flipped "vertical" img)) img
  ∧ same_pixels (flipped "vertical" (flipped "horizontal" img)) (rotated 180 img).
Proof.
  intros Hwf. pose proof Hwf as (HB & HW & HH & Hout).
  rewrite !rotated_eq, !flipped_eq. cbn [Z.eqb Pos.eqb String.eqb Ascii.eqb Bool.eqb andb].
  refine (conj _ (conj _ (conj _ (conj _ (conj _ _))))).
  - rewrite (Rotate270_eq _ H W) by (rewrite (Rotate90_eq img W H) by done;
                                      by apply canvas_well_formed).
    rewrite (Rotate90_eq img W H) by done.
    apply canvas_same_pixels; [ done | ]. intros x y Hx Hy.
    rewrite canvas_At by lia. f_equal; lia.
  - rewrite (Rotate90_eq _ H W) by (rewrite (Rotate270_eq img W H) by done;
                                     by apply canvas_well_formed).
    rewrite (Rotate270_eq img W H) by done.
    apply canvas_same_pixels; [ done | ]. intros x y Hx Hy.
    rewrite canvas_At by lia. f_equal; lia.
  - rewrite (Rotate180_eq _ W H) by (rewrite (Rotate180_eq img W H) by done;
                                      by apply canvas_well_formed).
    rewrite (Rotate180_eq img W H) by done.
    apply canvas_same_pixels; [ done | ]. intros x y Hx Hy.
    rewrite canvas_At by lia. f_equal; lia.
  - rewrite (FlipH_eq _ W H) by (rewrite (FlipH_eq img W H) by done;
                                  by apply canvas_well_formed).
    rewrite (FlipH_eq img W H) by done.
    apply canvas_same_pixels; [ done | ]. intros x y Hx Hy.
    rewrite canvas_At by lia. f_equal; lia.
  - rewrite (FlipV_eq _ W H) by (rewrite (FlipV_eq img W H) by done;
                                  by apply canvas_well_formed).
    rewrite (FlipV_eq img W H) by done.
    apply canvas_same_pixels; [ done | ]. intros x y Hx Hy.
    rewrite canvas_At by lia. f_equal; lia.
  - rewrite (FlipV_eq _ W H) by (rewrite (FlipH_eq img W H) by done;
                                  by apply canvas_well_formed).
    rewrite (FlipH_eq img W H), (Rotate180_eq img W H) by done.
    apply canvas_same_pixels; [ by apply canvas_well_formed | ]. intros x y Hx Hy.
    rewrite !canvas_At by lia. reflexivity.
Qed.

Lemma rotations_and_flips_undo_witness :
  same_pixels (rotated 270 (rotated 90 Examples.img4)) Examples.img4
  ∧ same_pixels (rotated 90 (rotated 270 Examples.img4)) Examples.img4
  ∧ same_pixels (rotated 180 (rotated 180 Examples.img4)) Examples.img4
  ∧ same_pixels (flipped "horizontal" (flipped "horizontal" Examples.img4)) Examples.img4
  ∧ same_pixels (flipped "vertical" (flipped "vertical" Examples.img4)) Examples.img4
  ∧ same_pixels (flipped "vertical" (flipped "horizontal" Examples.img4))
      (rotated 180 Examples.img4).
Proof.
  apply (rotations_and_flips_undo Examples.img4 4 4).
  apply solid_well_formed; lia.
Defined.

(** ** What is left after cropping and scaling *)

(** The pixels of a rectangle cut out of the inside of an image. *)
Lemma Crop_At img (W H x0 y0 x1 y1 x y : Z) :
  image.Bounds img = image.Rect 0 0 W H ->
  0 <= x0 < x1 -> 0 <= y0 < y1 -> x1 <= W -> y1 <= H ->
  x1 < 2 ^ 62 -> y1 < 2 ^ 62 ->
  0 <= x < x1 - x0 -> 0 <= y < y1 - y0 ->
  image.At (imaging.Crop img (image.Rect x0 y0 x1 y1)) x y = image.At img (x0 + x) (y0 + y).
Proof.
  intros HB Hx0 Hy0 HW HH Hx1 Hy1 Hx Hy.
  unfold imaging.Crop. cbv zeta. rewrite HB.
  rewrite !Rect_ordered by lia.
  unfold image.Intersect, image.Empty. zcases.
  unfold image.Dx, image.Dy, GoInt.sub, GoInt.add.
  cbn [image.X image.Y image.Min image.Max].
  rewrite !wrap_small by lia.
  rewrite canvas_At by lia. rewrite !wrap_small by lia. reflexivity.
Qed.

(** X13. The pixels [CropImage] keeps: for a crop that lies inside an
    image anchored at the origin, pixel (x, y) of the result is pixel
    (cropleft + x, croptop + y) of the source, for the columns and rows
    the result has - one fewer than the width and height asked for. *)
Theorem cropped_pixels l t cw ch img (W H x y : Z) :
  image.Bounds img = image.Rect 0 0 W H ->
  0 <= W < 2 ^ 62 -> 0 <= H < 2 ^ 62 ->
  ((cw =? -1) && (ch =? -1) && (l =? 0) && (t =? 0)) = false ->
  let cw' := if cw =? -1 then W else cw in
  let ch' := if ch =? -1 then H else ch in
  0 <= l -> 0 <= t -> 2 <= cw' -> 2 <= ch' ->
  l + cw' - 1 <= W -> t + ch' - 1 <= H ->
  0 <= x < cw' - 1 -> 0 <= y < ch' - 1 ->
  image.At (cropped l t cw ch img) x y = image.At img (l + x) (t + y).
Proof.
  intros HB HW HH Hn cw' ch' Hl Ht Hcw Hch Hr Hb Hx Hy.
  rewrite cropped_eq, Hn. unfold crop_rect.
  rewrite HB, Dx_Rect, Dy_Rect by lia. fold cw' ch'.
  unfold GoInt.add, GoInt.sub. rewrite !wrap_small by (rewrite ?wrap_small; lia).
  apply (Crop_At img W H); try assumption; lia.
Qed.

Lemma cropped_pixels_witness :
  image.At (cropped 1 0 (-1) 3 (imaging.canvas 4 4 (fun x y => x + 4 * y))) 0 1
  = image.At (imaging.canvas 4 4 (fun x y => x + 4 * y)) (1 + 0) (0 + 1).
Proof.
  apply (cropped_pixels 1 0 (-1) 3 (imaging.canvas 4 4 (fun x y => x + 4 * y)) 4 4 0 1);
    cbn; first [ reflexivity | lia ].
Defined.

(** X14. The size [ScaleImage] gives: for a scale other than 1.0 and an
    image of W by H pixels, the width and height asked of
    [imaging.Resize] are int(float64(W) * scale) and
    int(float64(H) * scale); when both are positive that is the size of
    the result, and when one is negative or both are zero (a scale that
    is too small, negative or not a number) the result is the image
    without pixels, which the loop goes on to encode like any other. *)
Theorem ScaleImage_size w sc img (W H : Z) :
  well_formed img W H -> 0 < W -> 0 < H ->
  (sc =? 1)%float = false ->
  let nw := GoInt.of_float64 (GoInt.to_float64 W * sc)%float in
  let nh := GoInt.of_float64 (GoInt.to_float64 H * sc)%float in
  (0 < nw -> 0 < nh -> image.Bounds (scaled w sc img) = image.Rect 0 0 nw nh)
  ∧ (nw < 0 ∨ nh < 0 ∨ (nw = 0 ∧ nh = 0) -> scaled w sc img = imaging.empty).
Proof.
  intros (HB & HW & HH & _) HW0 HH0 Hsc nw nh.
  rewrite scaled_eq, Hsc. unfold imaging.Resize.
  rewrite HB, Dx_Rect, Dy_Rect by lia. fold nw nh. cbv zeta.
  split.
  - intros Hnw Hnh.
    destruct (Z.ltb_spec nw 0), (Z.ltb_spec nh 0); try lia. cbn [orb].
    destruct (Z.eqb_spec nw 0), (Z.eqb_spec nh 0); try lia. cbn [andb].
    destruct (Z.leb_spec W 0), (Z.leb_spec H 0); try lia. reflexivity.
  - intros Hneg.
    destruct (Z.ltb_spec nw 0), (Z.ltb_spec nh 0); cbn [orb]; try reflexivity.
    destruct (Z.eqb_spec nw 0), (Z.eqb_spec nh 0); cbn [andb]; try reflexivity; lia.
Qed.

Lemma ScaleImage_size_witness :
  let nw := GoInt.of_float64 (GoInt.to_float64 4 * 2)%float in
  let nh := GoInt.of_float64 (GoInt.to_float64 4 * 2)%float in
  (0 < nw -> 0 < nh
   -> image.Bounds (scaled Examples.one_source 2 Examples.img4) = image.Rect 0 0 nw nh)
  ∧ (nw < 0 ∨ nh < 0 ∨ (nw = 0 ∧ nh = 0)
     -> scaled Examples.one_source 2 Examples.img4 = imaging.empty).
Proof.
  apply (ScaleImage_size Examples.one_source 2 Examples.img4 4 4).
  - apply solid_well_formed; lia.
  - lia.
  - lia.
  - reflexivity.
Defined.

Lemma cropped_inside_witness :
  image.Bounds (cropped 1 0 (-1) (-1) Examples.img4) = image.Rect 0 0 (4 - 1) (4 - 1).
Proof.
  apply (cropped_inside 1 0 (-1) (-1) Examples.img4 4 4);
    cbn; first [ reflexivity | lia ].
Defined.

(** ** What [-verbose] adds to standard error *)

Lemma q_ret {A} (a : A) : quieter (mret a) (mret a).
Proof. intros s1 s2 Hl Hf. cbn. done. Qed.

Lemma q_bind {A B} (m1 m2 : M A) (k1 k2 : A -> M B) :
  quieter m1 m2 -> (forall a, quieter (k1 a) (k2 a)) -> quieter (m1 ≫= k1) (m2 ≫= k2).
Proof.
  intros Hm Hk s1 s2 Hl Hf. specialize (Hm s1 s2 Hl Hf).
  unfold mbind, M_bind.
  destruct (m1 s1) as [a s1'|c s1'], (m2 s2) as [b s2'|d s2']; try done.
  destruct Hm as (-> & Hl' & Hf'). by apply Hk.
Qed.

Lemma q_Printf (m : Msg) : quieter (Printf m) (Printf m).
Proof.
  intros s1 s2 Hl Hf. cbn. split; [ done | split; [ | done ] ].
  by apply sublist_app.
Qed.

Lemma q_when (b1 b2 : bool) (m : Msg) :
  (b1 = true -> b2 = true) -> quieter (when b1 (Printf m)) (when b2 (Printf m)).
Proof.
  intros Hb. destruct b1, b2; cbn [when].
  - apply q_Printf.
  - by specialize (Hb eq_refl).
  - intros s1 s2 Hl Hf. cbn. split; [ done | split; [ | done ] ].
    by apply sublist_inserts_r.
  - apply q_ret.
Qed.

Lemma q_Exit {A} (c : Z) : quieter (@os_Exit A c) (os_Exit c).
Proof. intros s1 s2 Hl Hf. cbn. done. Qed.

Lemma q_Fatalf {A} (m : Msg) : quieter (@Fatalf A m) (Fatalf m).
Proof. unfold Fatalf. apply q_bind; [ apply q_Printf | intros _; apply q_Exit ]. Qed.

Lemma q_os_Create w name : quieter (os_Create w name) (os_Create w name).
Proof.
  intros s1 s2 Hl Hf. unfold os_Create.
  destruct (Create w name); cbn [log fs]; [ by rewrite Hf | done ].
Qed.

Lemma q_EncodeAll w opfile g : quieter (EncodeAll w opfile g) (EncodeAll w opfile g).
Proof.
  intros s1 s2 Hl Hf. unfold EncodeAll.
  destruct (gif.rejected g); [ done | ].
  destruct (WriteAll w g); cbn [log fs]; by rewrite Hf.
Qed.

Lemma q_for_range {S : Type} (b1 b2 : Z -> string -> S -> M S) :
  (forall ctr x st, quieter (b1 ctr x st) (b2 ctr x st)) ->
  forall l ctr st, quieter (for_range b1 ctr l st) (for_range b2 ctr l st).
Proof.
  intros Hb l. induction l as [|x l IH]; intros ctr st; cbn [for_range].
  - apply q_ret.
  - apply q_bind; [ apply Hb | intros st'; apply IH ].
Qed.

Ltac q_side :=
  let H := fresh in
  intros H; first [ discriminate H | exact H
                  | rewrite andb_false_r in H; discriminate H
                  | by rewrite andb_true_r ].

Ltac q_step :=
  first [ apply q_ret | apply q_Printf | apply q_Exit | apply q_Fatalf
        | apply q_os_Create | apply q_EncodeAll
        | apply q_when; q_side
        | apply q_bind; [ | intros ? ]
        | match goal with
          | |- quieter (match ?x with _ => _ end) _ => destruct x
          end ].

Lemma q_Factored_body w f n ctr x frames :
  quieter (Factored.body w (with_verbose false f) n ctr x frames)
          (Factored.body w (with_verbose true f) n ctr x frames).
Proof.
  unfold Factored.body, Factored.CropImage, Factored.ScaleImage,
    Factored.RotateImage, Factored.FlipImage.
  cbn [with_verbose verbose cropleft croptop cropwidth cropheight scale rotate flip].
  cbv zeta. repeat q_step.
Qed.

Lemma q_Inlined_body w f n ctr x st :
  quieter (Inlined.body w (with_verbose false f) n ctr x st)
          (Inlined.body w (with_verbose true f) n ctr x st).
Proof.
  unfold Inlined.body.
  cbn [with_verbose verbose cropleft croptop cropwidth cropheight scale rotate flip].
  cbv zeta. repeat q_step.
Qed.

Lemma q_Factored_main w f :
  quieter (Factored.main w (with_verbose false f)) (Factored.main w (with_verbose true f)).
Proof.
  unfold Factored.main, PrintDefaults, Close.
  cbn [with_verbose verbose srcglob destname cropwidth cropheight delay rotate flip].
  cbv zeta.
  repeat first [ apply q_for_range; intros; apply q_Factored_body | q_step ].
Qed.

Lemma q_Inlined_main w f :
  quieter (Inlined.main w (with_verbose false f)) (Inlined.main w (with_verbose true f)).
Proof.
  unfold Inlined.main, PrintDefaults, Close.
  cbn [with_verbose verbose srcglob destname cropwidth cropheight delay rotate flip].
  cbv zeta.
  repeat first [ apply q_for_range; intros; apply q_Inlined_body | q_step ].
Qed.

Lemma quieter_log {A} (m1 m2 : M A) (s : State) :
  quieter m1 m2 -> log (final_state (m1 s)) `sublist_of` log (final_state (m2 s)).
Proof.
  intros H. specialize (H s s (reflexivity _) eq_refl).
  destruct (m1 s), (m2 s); try done; by destruct H as (_ & H & _).
Qed.

(** X15. [-verbose] only adds lines: every line either program prints
    without the flag it prints with the flag too, in the same order; in
    particular no report of a skipped source or of a failed encoding is
    lost in the verbose output. *)
Theorem verbose_only_adds_lines w f s :
  log (final_state (Factored.main w (with_verbose false f) s))
    `sublist_of` log (final_state (Factored.main w (with_verbose true f) s))
  ∧ log (final_state (Inlined.main w (with_verbose false f) s))
      `sublist_of` log (final_state (Inlined.main w (with_verbose true f) s)).
Proof.
  split; apply quieter_log; [ apply q_Factored_main | apply q_Inlined_main ].
Qed.
